(** * minicon: the enrichment and dual-write pipeline of poc-loader.py

    A shallow embedding of [generate_scan_stream], [enrich_record],
    [write_to_bq], [write_to_alloy] and [run_poc], and the properties of
    the pipeline that follow from them.

    Conventions of the embedding.
    - A finding is a Python [dict] with string keys: a [gmap string value].
    - Python exceptions are values of [exn]; a call that may raise returns
      [result A = exn + A].
    - Text is ASCII: a [string] is a sequence of one-byte characters, and a
      character above 127 is neither a digit nor white space.  The
      interpreter's limit on the length of a decimal literal is not
      modelled.
    - What the program cannot decide by itself (the replies of the two
      sinks, the clocks, the JSON encoder) is read from an [env]. *)

From Stdlib Require Import ZArith Ascii String List Lia DecimalString DecimalNat.
From stdpp Require Import base option list strings gmap.

Local Open Scope string_scope.
Local Open Scope Z_scope.

(** ** Exceptions and values *)

Inductive exn : Type :=
  | KeyError (key : string)
  | IndexError
  | ValueError (literal : string)
  | AttributeError
  | TypeError
  | SinkError (msg : string).

Definition result (A : Type) : Type := (exn + A)%type.

(** [str(e)], as the log messages print an exception. *)
Definition str_of_exn (e : exn) : string :=
  match e with
  | KeyError k => "'" ++ k ++ "'"
  | IndexError => "list index out of range"
  | ValueError s => "invalid literal for int() with base 10: '" ++ s ++ "'"
  | AttributeError => "'float' object has no attribute 'split'"
  | TypeError => "Object is not JSON serializable"
  | SinkError msg => msg
  end.

(** The values a finding holds: text, or the CVSS score, a float rounded
    to one decimal and kept here as its number of tenths.  The pipeline
    never computes with a score. *)
Inductive value : Type :=
  | VStr (s : string)
  | VFloat (tenths : Z).

Global Instance value_eq_dec : EqDecision value.
Proof. solve_decision. Defined.

Global Instance value_countable : Countable value.
Proof.
  refine (inj_countable'
            (fun v => match v with VStr s => inl s | VFloat z => inr z end)
            (fun x => match x with inl s => VStr s | inr z => VFloat z end) _).
  intros []; reflexivity.
Defined.

(** A finding, raw or enriched: a Python [dict] with string keys. *)
Abbreviation dict := (gmap string value).

(** ** The Python primitives [enrich_record] uses *)

Module Py.

(** [str(n)] for an integer. *)
Definition str_of_nat (n : nat) : string :=
  NilZero.string_of_uint (Nat.to_uint n).

Definition str_of_Z (z : Z) : string :=
  NilZero.string_of_int (Z.to_int z).

(** [s.split(sep)] for a separator of one character: the pieces between
    the occurrences of [sep], at least one piece. *)
Fixpoint split (sep : ascii) (s : string) : list string :=
  match s with
  | EmptyString => [EmptyString]
  | String c s' =>
      if Ascii.eqb c sep then EmptyString :: split sep s'
      else match split sep s' with
           | [] => [String c EmptyString]
           | p :: ps => String c p :: ps
           end
  end.

(** [l[i]] *)
Definition index {A} (l : list A) (i : nat) : result A :=
  match l !! i with
  | Some x => inr x
  | None => inl IndexError
  end.

(** [d[k]] *)
Definition getitem (d : dict) (k : string) : result value :=
  match d !! k with
  | Some v => inr v
  | None => inl (KeyError k)
  end.

(** White space for [int()] on ASCII text: tab, line feed, vertical tab,
    form feed, carriage return and the space. *)
Definition is_space (c : ascii) : bool :=
  let n := nat_of_ascii c in
  ((9 <=? n) && (n <=? 13) || (n =? 32))%nat.

Definition digit_of (c : ascii) : option Z :=
  let n := nat_of_ascii c in
  if ((48 <=? n) && (n <=? 57))%nat then Some (Z.of_nat n - 48) else None.

Fixpoint all_space (s : string) : bool :=
  match s with
  | EmptyString => true
  | String c s' => is_space c && all_space s'
  end.

Fixpoint lstrip (s : string) : string :=
  match s with
  | EmptyString => EmptyString
  | String c s' => if is_space c then lstrip s' else s
  end.

(** The digits after the first one: more digits, each possibly preceded
    by one underscore, then white space up to the end. *)
Fixpoint int_digits (acc : Z) (s : string) : option Z :=
  match s with
  | EmptyString => Some acc
  | String c s' =>
      match digit_of c with
      | Some d => int_digits (10 * acc + d) s'
      | None =>
          if Ascii.eqb c "_" then
            match s' with
            | String c' s'' =>
                match digit_of c' with
                | Some d => int_digits (10 * acc + d) s''
                | None => None
                end
            | EmptyString => None
            end
          else if all_space s then Some acc else None
      end
  end.

(** [int(s)] in base 10: white space, an optional sign, digits. *)
Definition int (s : string) : result Z :=
  let body := lstrip s in
  let '(negative, digits) :=
    match body with
    | String "+" r => (false, r)
    | String "-" r => (true, r)
    | _ => (false, body)
    end in
  match digits with
  | String c r =>
      match digit_of c with
      | Some d =>
          match int_digits d r with
          | Some n => inr (if negative then - n else n)
          | None => inl (ValueError s)
          end
      | None => inl (ValueError s)
      end
  | EmptyString => inl (ValueError s)
  end.

End Py.

(** ** Enrichment (poc-loader.py, [enrich_record]) *)

(** [int(record["asset_id"].split("-")[1])] *)
Definition asset_num_of (record : dict) : result Z :=
  match Py.getitem record "asset_id" with
  | inl e => inl e
  | inr (VFloat _) => inl AttributeError
  | inr (VStr asset_id) =>
      match Py.index (Py.split "-" asset_id) 1 with
      | inl e => inl e
      | inr suffix => Py.int suffix
      end
  end.

Definition stable_id_of (asset_num : Z) : string :=
  "payment-service-" ++ Py.str_of_Z (asset_num mod 10).

Definition team_owner_of (asset_num : Z) : string :=
  if asset_num mod 2 =? 0 then "Checkout Team" else "Platform Team".

Definition region_of (asset_num : Z) : string :=
  if asset_num <? 50 then "us-east1" else "europe-west2".

(** The record is updated in place and returned: the result is the
    argument with three more keys. *)
Definition enrich_record (record : dict) : result dict :=
  match asset_num_of record with
  | inl e => inl e
  | inr asset_num =>
      let stable_id := stable_id_of asset_num in
      let record := <["stable_identity" := VStr stable_id]> record in
      let record := <["team_owner" := VStr (team_owner_of asset_num)]> record in
      let record := <["region" := VStr (region_of asset_num)]> record in
      inr record
  end.

(** ** State and errors

    A computation over a state [S] that may raise: it returns the state it
    leaves behind, and either the exception or its value. *)

Definition M (S A : Type) : Type := S -> S * result A.

Definition ret {S A} (a : A) : M S A := fun s => (s, inr a).

Definition raise {S A} (e : exn) : M S A := fun s => (s, inl e).

Definition bind {S A B} (m : M S A) (k : A -> M S B) : M S B :=
  fun s =>
    match m s with
    | (s', inl e) => (s', inl e)
    | (s', inr a) => k a s'
    end.

(** [try: body / except Exception as e: handler e] *)
Definition try_except {S A} (body : M S A) (handler : exn -> M S A) : M S A :=
  fun s =>
    match body s with
    | (s', inl e) => handler e s'
    | (s', inr a) => (s', inr a)
    end.

Definition lift_result {S A} (r : result A) : M S A := fun s => (s, r).

Definition gets {S A} (f : S -> A) : M S A := fun s => (s, inr (f s)).

Definition modify {S} (f : S -> S) : M S unit := fun s => (f s, inr tt).

Declare Scope py_scope.
Delimit Scope py_scope with py.
Notation "x <- m ;; k" := (bind m (fun x => k))
  (at level 20, m at level 99, k at level 200, only parsing) : py_scope.
Notation "m ;; k" := (bind m (fun _ => k))
  (at level 100, k at level 200, right associativity, only parsing) : py_scope.

(** The same sequencing for a computation with no state. *)
Definition and_then {A B} (r : result A) (k : A -> result B) : result B :=
  match r with
  | inl e => inl e
  | inr a => k a
  end.

Notation "x <-? r ;; k" := (and_then r (fun x => k))
  (at level 20, r at level 99, k at level 200, only parsing) : py_scope.

Local Open Scope py_scope.

(** ** Logging *)

Inductive level : Type := INFO | ERROR.

Definition log_record : Type := level * string.

(** ** The state sink: table [active_vulnerabilities]

    One row per [(stable_identity, cve_id)], the columns of the unique
    constraint; the other columns are the fields of [row]. *)

Record row : Type := {
  technical_id : value;
  team_owner : value;
  region : value;
  cvss_score : value;
  severity : value;
  status : string;
  first_seen : Z;
  last_seen : Z;
  finding_summary : value
}.

Abbreviation table := (gmap (value * value) row).

(** The eight parameters of one execution of [upsert_sql], in the order of
    the tuple [write_to_alloy] builds. *)
Record params : Type := {
  p_stable_identity : value;
  p_asset_id : value;
  p_team_owner : value;
  p_region : value;
  p_cve_id : value;
  p_cvss_score : value;
  p_severity : value;
  p_summary : value
}.

Definition key_of (p : params) : value * value :=
  (p_stable_identity p, p_cve_id p).

(** The row of the [VALUES] clause. *)
Definition inserted_row (now : Z) (p : params) : row :=
  {| technical_id := p_asset_id p;
     team_owner := p_team_owner p;
     region := p_region p;
     cvss_score := p_cvss_score p;
     severity := p_severity p;
     status := "Open";
     first_seen := now;
     last_seen := now;
     finding_summary := p_summary p |}.

(** The [DO UPDATE SET] clause on the row in conflict. *)
Definition updated_row (now : Z) (p : params) (old : row) : row :=
  {| technical_id := p_asset_id p;
     team_owner := team_owner old;
     region := region old;
     cvss_score := cvss_score old;
     severity := severity old;
     status := if String.eqb (status old) "Fixed" then "Open" else status old;
     first_seen := first_seen old;
     last_seen := now;
     finding_summary := finding_summary old |}.

(** One execution of [upsert_sql]. *)
Definition upsert_sql (now : Z) (p : params) (t : table) : table :=
  match t !! key_of p with
  | None => <[key_of p := inserted_row now p]> t
  | Some old => <[key_of p := updated_row now p old]> t
  end.

(** A connection: what the server has committed, and the table as the
    open transaction sees it, if one is open. *)
Record conn : Type := {
  committed : table;
  pending : option table
}.

Definition view (c : conn) : table := default (committed c) (pending c).

(** [cursor.execute]: the statement runs in the open transaction, which
    the first statement opens; [fault] is the server's refusal, if any. *)
Definition execute (now : Z) (fault : option string) (p : params)
  : M conn unit :=
  fun c =>
    match fault with
    | Some msg =>
        ({| committed := committed c; pending := Some (view c) |},
         inl (SinkError msg))
    | None =>
        ({| committed := committed c;
            pending := Some (upsert_sql now p (view c)) |}, inr tt)
    end.

(** [cursor.executemany]: one execution per tuple, in order, stopping at
    the first that raises. *)
Fixpoint executemany (now : Z) (fault : nat -> option string) (i : nat)
    (data_tuples : list params) : M conn unit :=
  match data_tuples with
  | [] => ret tt
  | p :: rest =>
      execute now (fault i) p ;;
      executemany now fault (S i) rest
  end.

Definition commit (fault : option string) : M conn unit :=
  fun c =>
    match fault with
    | Some msg => (c, inl (SinkError msg))
    | None => ({| committed := view c; pending := None |}, inr tt)
    end.

(** [conn.rollback()] and [conn.close()] drop the open transaction; they
    are taken not to raise. *)
Definition rollback : M conn unit :=
  modify (fun c => {| committed := committed c; pending := None |}).

Definition close : M conn unit := rollback.

(** ** The environment of a run

    The replies of the collaborators.  A batch is numbered by its rank of
    dispatch, from 0. *)

Record env : Type := {
  (** [bigquery.Client()] and [psycopg2.connect(...)]: the exception they
      raise, if they do. *)
  bigquery_Client : option exn;
  psycopg2_connect : option exn;
  (** [json.dumps(item)] *)
  json_dumps : dict -> result string;
  (** [datetime.now().isoformat()] for row [i] of batch [k] *)
  datetime_now : nat -> nat -> string;
  (** [bq_client.insert_rows_json(BQ_TABLE_ID, rows)] for batch [k]: the
      errors it returns, each as [repr] prints it, or what it raises. *)
  insert_rows_json : nat -> string -> list dict -> result (list string);
  (** [NOW()] in the transaction of batch [k] *)
  sql_now : nat -> Z;
  (** the server's refusal of statement [i] of batch [k], and of the
      commit of batch [k] *)
  execute_fault : nat -> nat -> option string;
  commit_fault : nat -> option string
}.

Definition BQ_TABLE_ID : string :=
  "pd-demo-202510.vulnerability_archive.raw_scan_logs".


(** ** The archive writer ([write_to_bq]) *)

Fixpoint rows_to_insert (e : env) (k i : nat) (batch : list dict)
  : result (list dict) :=
  match batch with
  | [] => inr []
  | item :: rest =>
      asset_id <-? Py.getitem item "asset_id" ;;
      scan_date <-? Py.getitem item "scan_date" ;;
      cve_id <-? Py.getitem item "cve_id" ;;
      findings_json <-? json_dumps e item ;;
      let row : dict :=
        <["ingestion_time" := VStr (datetime_now e k i)]>
        (<["findings_json" := VStr findings_json]>
        (<["cve_id" := cve_id]>
        (<["scan_date" := scan_date]>
        (<["asset_id" := asset_id]> ∅)))) in
      rows <-? rows_to_insert e k (S i) rest ;;
      inr (row :: rows)
  end.

(** [f"{errors}"] for a list whose items print as given. *)
Definition repr_list (items : list string) : string :=
  "[" ++ String.concat ", " items ++ "]".

Definition logging {S} (lvl : level) (msg : string)
  (add : log_record -> S -> S) : M S unit :=
  modify (add (lvl, msg)).

(** [write_to_bq] runs in a worker thread: its state is the lines it has
    logged. *)
Definition write_to_bq (e : env) (k : nat) (batch : list dict)
  : M (list log_record) unit :=
  let info msg := logging INFO msg (fun l lg => (lg ++ [l])%list) in
  let error msg := logging ERROR msg (fun l lg => (lg ++ [l])%list) in
  rows <- lift_result (rows_to_insert e k 0 batch) ;;
  info ("Archiving " ++ Py.str_of_nat (length batch)
        ++ " records to BigQuery ...") ;;
  errors <- lift_result (insert_rows_json e k BQ_TABLE_ID rows) ;;
  match errors with
  | _ :: _ => error ("BigQuery Errors: " ++ repr_list errors)
  | [] => info ("Archived " ++ Py.str_of_nat (length batch)
                ++ " records to BigQuery.")
  end.

(** ** The world of a run *)

(** A task handed to the executor: its batch, what it logged, and how it
    ended.  Nothing reads the result of a future, so an exception of the
    task stays in it. *)
Record future : Type := {
  task_batch : list dict;
  task_log : list log_record;
  task_result : result unit
}.

Record world : Type := {
  alloy : conn;
  futures : list future;
  log : list log_record;
  (** the batches [write_to_alloy] was called with, in order: a trace for
      the statements on dispatch, the program keeps no such list *)
  upserts : list (list dict)
}.

Definition start (db : table) : world :=
  {| alloy := {| committed := db; pending := None |};
     futures := []; log := []; upserts := [] |}.

Definition add_log (l : log_record) (w : world) : world :=
  {| alloy := alloy w; futures := futures w; log := (log w ++ [l])%list;
     upserts := upserts w |}.

Definition add_future (f : future) (w : world) : world :=
  {| alloy := alloy w; futures := (futures w ++ [f])%list; log := log w;
     upserts := upserts w |}.

Definition add_upsert (b : list dict) (w : world) : world :=
  {| alloy := alloy w; futures := futures w; log := log w;
     upserts := (upserts w ++ [b])%list |}.

Definition logging_info (msg : string) : M world unit :=
  logging INFO msg add_log.

Definition logging_error (msg : string) : M world unit :=
  logging ERROR msg add_log.

(** Run a computation of the connection on the connection of the world. *)
Definition on_alloy {A} (m : M conn A) : M world A :=
  fun w =>
    let '(c, r) := m (alloy w) in
    ({| alloy := c; futures := futures w; log := log w;
        upserts := upserts w |}, r).

(** [executor.submit(task)]: the task runs to its end in a worker and the
    future keeps its outcome; [submit] itself does not raise.  The lines
    a task logs are kept with its future, since their place among the
    lines of the main thread is not determined. *)
Definition submit (batch : list dict) (task : M (list log_record) unit)
  : M world unit :=
  let '(lg, r) := task [] in
  modify (add_future {| task_batch := batch; task_log := lg;
                        task_result := r |}).

(** ** The state writer ([write_to_alloy]) *)

Definition data_tuple (r : dict) : result params :=
  stable_identity <-? Py.getitem r "stable_identity" ;;
  asset_id <-? Py.getitem r "asset_id" ;;
  team_owner <-? Py.getitem r "team_owner" ;;
  region <-? Py.getitem r "region" ;;
  cve_id <-? Py.getitem r "cve_id" ;;
  cvss_score <-? Py.getitem r "cvss_score" ;;
  severity <-? Py.getitem r "severity" ;;
  summary <-? Py.getitem r "summary" ;;
  inr {| p_stable_identity := stable_identity; p_asset_id := asset_id;
         p_team_owner := team_owner; p_region := region;
         p_cve_id := cve_id; p_cvss_score := cvss_score;
         p_severity := severity; p_summary := summary |}.

Fixpoint data_tuples (batch : list dict) : result (list params) :=
  match batch with
  | [] => inr []
  | r :: rest =>
      p <-? data_tuple r ;;
      ps <-? data_tuples rest ;;
      inr (p :: ps)
  end.

(** The tuples are built before the [try]; the statements and the commit
    are inside it. *)
Definition write_to_alloy (e : env) (k : nat) (batch : list dict)
  : M world unit :=
  modify (add_upsert batch) ;;
  data <- lift_result (data_tuples batch) ;;
  try_except
    (on_alloy (executemany (sql_now e k) (execute_fault e k) 0 data) ;;
     on_alloy (commit (commit_fault e k)) ;;
     logging_info ("Upserted " ++ Py.str_of_nat (length batch)
                   ++ " records to AlloyDB."))
    (fun ex =>
       on_alloy rollback ;;
       logging_error ("AlloyDB Error: " ++ str_of_exn ex)).

(** ** The coordinator ([run_poc]) *)

(** The body of [if len(batch_buffer) >= batch_size]. *)
Definition flush (e : env) (current_batch : list dict) : M world unit :=
  k <- gets (fun w => length (futures w)) ;;
  submit current_batch (write_to_bq e k current_batch) ;;
  write_to_alloy e k current_batch.

(** The [for] loop; it returns [batch_buffer] as the loop leaves it. *)
Fixpoint stream_loop (e : env) (batch_size : nat) (stream : list dict)
    (batch_buffer : list dict) : M world (list dict) :=
  match stream with
  | [] => ret batch_buffer
  | raw_record :: rest =>
      enriched <- lift_result (enrich_record raw_record) ;;
      let batch_buffer := (batch_buffer ++ [enriched])%list in
      if (batch_size <=? length batch_buffer)%nat then
        flush e batch_buffer ;;
        stream_loop e batch_size rest []
      else
        stream_loop e batch_size rest batch_buffer
  end.

Definition connect (outcome : option exn) : M world unit :=
  match outcome with
  | Some ex => raise ex
  | None => ret tt
  end.

(** [run_poc], with [batch_size] (100 in the program) and the stream
    ([generate_scan_stream(TOTAL_RECORDS)] in the program) as arguments.
    An exception in the [with] block leaves [run_poc] after the executor
    has shut down; the tasks have run by then. *)
Definition run_poc (e : env) (batch_size : nat) (stream : list dict)
  : M world unit :=
  logging_info "Starting Mini-PoC Stream" ;;
  connect (bigquery_Client e) ;;
  connect (psycopg2_connect e) ;;
  stream_loop e batch_size stream [] ;;
  logging_info "Waiting for BigQuery tasks to complete ..." ;;
  logging_info "PoC Completed Successfully" ;;
  on_alloy close.

(** The three fields enrichment derives, as far as a caller can see them:
    the exception, or the values under the three keys. *)
Definition derived (r : result dict)
  : result (option value * option value * option value) :=
  match r with
  | inl e => inl e
  | inr d => inr (d !! "stable_identity", d !! "team_owner", d !! "region")
  end.

(** The stable identities, by [asset_num % 10]. *)
Definition services : list string :=
  [ "payment-service-0"; "payment-service-1"; "payment-service-2";
    "payment-service-3"; "payment-service-4"; "payment-service-5";
    "payment-service-6"; "payment-service-7"; "payment-service-8";
    "payment-service-9" ].

(** ** Reading a run *)

(** The world [run_poc] leaves when the loop has ended in [w]: the two
    closing lines are logged and the connection is closed. *)
Definition finish (w : world) : world :=
  {| alloy := {| committed := committed (alloy w); pending := None |};
     futures := futures w;
     log := (log w ++ [(INFO, "Waiting for BigQuery tasks to complete ...");
                       (INFO, "PoC Completed Successfully")])%list;
     upserts := upserts w |}.

(** The world in which the loop starts. *)
Definition started (db : table) : world :=
  add_log (INFO, "Starting Mini-PoC Stream") (start db).

(** The future of the task [flush] submits for [batch] as batch [k]. *)
Definition archive_task (e : env) (k : nat) (batch : list dict) : future :=
  {| task_batch := batch;
     task_log := fst (write_to_bq e k batch []);
     task_result := snd (write_to_bq e k batch []) |}.






(** The environment with the archive side of [a]: its JSON encoder, its
    clock and its replies to [insert_rows_json]. *)
Definition with_archive (a e : env) : env :=
  {| bigquery_Client := bigquery_Client e;
     psycopg2_connect := psycopg2_connect e;
     json_dumps := json_dumps a;
     datetime_now := datetime_now a;
     insert_rows_json := insert_rows_json a;
     sql_now := sql_now e;
     execute_fault := execute_fault e;
     commit_fault := commit_fault e |}.

(** What the state writer and the main thread can see of a world. *)
Definition same_state_side (w w' : world) : Prop :=
  alloy w' = alloy w /\ log w' = log w /\ upserts w' = upserts w /\
  map task_batch (futures w') = map task_batch (futures w).

(** A step of the upsert of batch [k] fails: a tuple cannot be built, the
    server refuses a statement, or it refuses the commit. *)
Definition batch_fails (e : env) (k : nat) (batch : list dict) : Prop :=
  (exists ex, data_tuples batch = inl ex) \/
  (exists i, (i < length batch)%nat /\ is_Some (execute_fault e k i)) \/
  is_Some (commit_fault e k).


(** ** The record source ([generate_scan_stream])

    The generator draws from [random], [Faker] and the clock: what it
    draws is read from a [source].  A draw is any natural number;
    [choice] and [randint] bring it into range, so that every outcome of
    the library, and no other, is the outcome of some draw. *)

Record source : Type := {
  (** the draw of [random.randint(1000, 9999)] for entry [j] of [cves] *)
  draw_cve_number : nat -> nat;
  (** the draws of the three [random.choice] of record [i] *)
  draw_asset : nat -> nat;
  draw_cve : nat -> nat;
  draw_severity : nat -> nat;
  (** [round(random.uniform(4.0, 10.0), 1)] of record [i], in tenths *)
  draw_score : nat -> nat;
  (** [fake.uuid4()] and [datetime.now().isoformat()] of record [i] *)
  fake_uuid4 : nat -> string;
  scan_clock : nat -> string
}.

(** [random.choice(seq)]: an element of [seq]; [IndexError] on an empty
    sequence. *)
Definition choice {A} (draw : nat) (l : list A) : result A :=
  match l with
  | [] => inl IndexError
  | _ :: _ => Py.index l (draw mod length l)
  end.

(** [random.randint(lo, hi)] for [lo <= hi]. *)
Definition randint (lo hi : Z) (draw : nat) : Z :=
  (lo + Z.of_nat draw mod (hi - lo + 1))%Z.

(** [[f"asset-{i}" for i in range(1, 101)]] *)
Definition assets : list string :=
  map (fun i => "asset-" ++ Py.str_of_nat i) (seq 1 100).

(** [[f"CVE-2024-{random.randint(1000, 9999)}" for i in range(50)]] *)
Definition cves (src : source) : list string :=
  map (fun j => "CVE-2024-"
                ++ Py.str_of_Z (randint 1000 9999 (draw_cve_number src j)))
      (seq 0 50).

Definition severities : list string := ["Medium"; "High"; "Critical"].

(** The dictionary record [i] yields. *)
Definition scan_record (src : source) (i : nat) : result dict :=
  asset <-? choice (draw_asset src i) assets ;;
  cve <-? choice (draw_cve src i) (cves src) ;;
  severity <-? choice (draw_severity src i) severities ;;
  inr (<["summary" := VStr ("Found vulnerability " ++ cve ++ " in " ++ asset
                            ++ ". Recommendation: Patch immediately.")]>
      (<["severity" := VStr severity]>
      (<["cvss_score" :=
           VFloat (randint 40 100 (draw_score src i))]>
      (<["cve_id" := VStr cve]>
      (<["asset_id" := VStr asset]>
      (<["scan_date" := VStr (scan_clock src i)]>
      (<["scan_id" := VStr (fake_uuid4 src i)]> ∅))))))).

(** The records the generator yields, from record [i] on. *)
Fixpoint scan_records (src : source) (i count : nat) : result (list dict) :=
  match count with
  | O => inr []
  | S count' =>
      r <-? scan_record src i ;;
      rest <-? scan_records src (S i) count' ;;
      inr (r :: rest)
  end.

Definition generate_scan_stream (src : source) (num_records : nat)
  : result (list dict) :=
  scan_records src 0 num_records.

(** The program as it runs: [run_poc] on
    [generate_scan_stream(TOTAL_RECORDS)] with [batch_size = 100]. *)
Definition batch_size : nat := 100.


(** ** Relations between two states of the state sink *)

(** The columns no upsert writes. *)
Definition same_history (old new : row) : Prop :=
  first_seen new = first_seen old /\
  team_owner new = team_owner old /\
  region new = region old /\
  cvss_score new = cvss_score old /\
  severity new = severity old /\
  finding_summary new = finding_summary old.

(** From [t] to [t']: no row is gone, a row that was there has the
    columns of [same_history] as they were, and a row that is [Fixed] was
    there, the same. *)
Definition keeps_history (t t' : table) : Prop :=
  (forall k old, t !! k = Some old ->
     exists new, t' !! k = Some new /\ same_history old new) /\
  (forall k new, t' !! k = Some new -> status new = "Fixed" ->
     t !! k = Some new).

(** The keys of the rows a finding can create. *)
Definition key_of_finding (x : dict) : option (value * value) :=
  match x !! "stable_identity", x !! "cve_id" with
  | Some s, Some c => Some (s, c)
  | _, _ => None
  end.

(** The character [c] does not occur in [s]. *)
Definition free_of (c : ascii) (s : string) : Prop :=
  ~ In c (list_ascii_of_string s).

(** A row of the archive made from [item]: the three indexed columns are
    those of the finding, the blob is its JSON, and there are five
    columns. *)
Definition archive_row_of (e : env) (item row : dict) : Prop :=
  row !! "asset_id" = item !! "asset_id" /\
  row !! "scan_date" = item !! "scan_date" /\
  row !! "cve_id" = item !! "cve_id" /\
  (exists blob, json_dumps e item = inr blob /\
                row !! "findings_json" = Some (VStr blob)) /\
  dom row = list_to_set ["asset_id"; "scan_date"; "cve_id"; "findings_json";
                         "ingestion_time"]%string.

(** A finding as the generator makes them: on one of the hundred assets,
    one of the fifty finding identifiers and one of the three severities,
    with a score between 4.0 and 10.0, a summary that names its finding
    identifier and its asset, and the seven keys. *)
Definition generated_record (src : source) (r : dict) : Prop :=
  exists (i : nat) (cve sev : string) (score : Z),
    (1 <= i <= 100)%nat /\ cve ∈ cves src /\ sev ∈ severities /\
    (40 <= score <= 100)%Z /\
    r !! "asset_id" = Some (VStr ("asset-" ++ Py.str_of_nat i)) /\
    r !! "cve_id" = Some (VStr cve) /\
    r !! "severity" = Some (VStr sev) /\
    r !! "cvss_score" = Some (VFloat score) /\
    r !! "summary" =
      Some (VStr ("Found vulnerability " ++ cve ++ " in "
                  ++ ("asset-" ++ Py.str_of_nat i)
                  ++ ". Recommendation: Patch immediately.")) /\
    dom r = list_to_set ["scan_id"; "scan_date"; "asset_id"; "cve_id";
                         "cvss_score"; "severity"; "summary"]%string.

(** The keys of the state sink a generated stream can reach: a service
    and one of the fifty finding identifiers. *)
Definition reachable_keys (src : source) : list (value * value) :=
  s ← services; c ← cves src; [(VStr s, VStr c)].

(** ** Sample data

    A run in which no collaborator fails, and findings of the shape the
    generator yields. *)

Definition quiet_env : env :=
  {| bigquery_Client := None;
     psycopg2_connect := None;
     json_dumps := fun _ => inr "{}";
     datetime_now := fun _ _ => "2024-01-01T00:00:00";
     insert_rows_json := fun _ _ _ => inr [];
     sql_now := fun k => Z.of_nat k;
     execute_fault := fun _ _ => None;
     commit_fault := fun _ => None |}.

Definition raw_finding (asset_id cve_id : string) : dict :=
  <["summary" := VStr "Patch immediately."]>
  (<["severity" := VStr "High"]>
  (<["cvss_score" := VFloat 75]>
  (<["cve_id" := VStr cve_id]>
  (<["asset_id" := VStr asset_id]>
  (<["scan_date" := VStr "2024-01-01T00:00:00"]>
  (<["scan_id" := VStr "0000"]> ∅)))))).

Definition sample_params (stable_identity cve_id : string) : params :=
  {| p_stable_identity := VStr stable_identity;
     p_asset_id := VStr "asset-13";
     p_team_owner := VStr "Platform Team";
     p_region := VStr "us-east1";
     p_cve_id := VStr cve_id;
     p_cvss_score := VFloat 75;
     p_severity := VStr "High";
     p_summary := VStr "Patch immediately." |}.

Definition sample_row (st : string) : row :=
  {| technical_id := VStr "asset-3";
     team_owner := VStr "Platform Team";
     region := VStr "us-east1";
     cvss_score := VFloat 91;
     severity := VStr "Critical";
     status := st;
     first_seen := 10;
     last_seen := 20;
     finding_summary := VStr "Found earlier." |}.

Definition sample_key : value * value :=
  (VStr "payment-service-3", VStr "CVE-2024-1111").

Definition sample_table (st : string) : table :=
  {[ sample_key := sample_row st ]}.

(** The archive is down: every insertion raises. *)
Definition archive_down_env : env :=
  {| bigquery_Client := None;
     psycopg2_connect := None;
     json_dumps := fun _ => inr "{}";
     datetime_now := fun _ _ => "2024-01-01T00:00:00";
     insert_rows_json := fun _ _ _ => inl (SinkError "503 Service Unavailable");
     sql_now := fun k => Z.of_nat k;
     execute_fault := fun _ _ => None;
     commit_fault := fun _ => None |}.

(** [count] findings on the assets 1, 2, ..., each with a finding
    identifier of its own. *)
Definition findings (count : nat) : list dict :=
  map (fun i => raw_finding ("asset-" ++ Py.str_of_nat (S i))
                            ("CVE-2024-" ++ Py.str_of_nat (1000 + i)))
      (seq 0 count).

(** Two good findings, one whose identifier has no number, two more good
    ones. *)
Definition malformed_finding : dict := raw_finding "asset-x" "CVE-2024-1111".

Definition stream_with_malformed : list dict :=
  (findings 2 ++ malformed_finding :: findings 2)%list.

(** The findings of [findings 2], enriched. *)
Definition enriched_batch : list dict :=
  omap (fun r => match enrich_record r with
                 | inr x => Some x
                 | inl _ => None
                 end) (findings 2).

(** The state sink refuses the second statement of the first batch. *)
Definition refusing_env : env :=
  {| bigquery_Client := None;
     psycopg2_connect := None;
     json_dumps := fun _ => inr "{}";
     datetime_now := fun _ _ => "2024-01-01T00:00:00";
     insert_rows_json := fun _ _ _ => inr [];
     sql_now := fun k => Z.of_nat k;
     execute_fault := fun k i =>
       if ((k =? 0) && (i =? 1))%nat then Some "deadlock detected" else None;
     commit_fault := fun _ => None |}.


(** A source that always draws 7: asset 8, the eighth finding identifier,
    ["CVE-2024-1007"] for every entry of [cves]. *)
Definition sample_source : source :=
  {| draw_cve_number := fun _ => 7%nat;
     draw_asset := fun _ => 7%nat;
     draw_cve := fun _ => 7%nat;
     draw_severity := fun _ => 7%nat;
     draw_score := fun _ => 7%nat;
     fake_uuid4 := fun _ => "0000";
     scan_clock := fun _ => "2024-01-01T00:00:00" |}.

(** The first three findings of [sample_source]. *)
Definition three_generated : list dict :=
  match generate_scan_stream sample_source 3 with
  | inr stream => stream
  | inl _ => []
  end.

(** The tuples of [enriched_batch]. *)
Definition enriched_params : list params :=
  match data_tuples enriched_batch with
  | inr data => data
  | inl _ => []
  end.

(** The finding on asset 37, enriched. *)
Definition enriched_finding : dict :=
  match enrich_record (raw_finding "asset-37" "CVE-2024-1111") with
  | inr x => x
  | inl _ => ∅
  end.

(** An enriched finding that has lost its severity, and a raw one with no
    date. *)
Definition finding_without_severity : dict := delete "severity" enriched_finding.

Definition finding_without_date : dict :=
  delete "scan_date" (raw_finding "asset-37" "CVE-2024-1111").

(** No credentials for the archive: [bigquery.Client()] raises. *)
Definition offline_env : env :=
  {| bigquery_Client := Some (SinkError "credentials not found");
     psycopg2_connect := None;
     json_dumps := fun _ => inr "{}";
     datetime_now := fun _ _ => "2024-01-01T00:00:00";
     insert_rows_json := fun _ _ _ => inr [];
     sql_now := fun k => Z.of_nat k;
     execute_fault := fun _ _ => None;
     commit_fault := fun _ => None |}.

(** * Properties *)

Local Open Scope nat_scope.

(** ** Sequencing *)

Lemma and_then_inr {A B} (r : result A) (k : A -> result B) b :
  and_then r k = inr b -> exists a, r = inr a /\ k a = inr b.
Proof. destruct r as [e | a]; simpl; [discriminate | eauto]. Qed.

(** ** The conflict rule of [upsert_sql] *)

Section Upsert.

Variables (now : Z) (p : params) (t : table).

Lemma upsert_sql_present old :
  t !! key_of p = Some old ->
  upsert_sql now p t !! key_of p = Some (updated_row now p old).
Proof. intros H. unfold upsert_sql. rewrite H. apply lookup_insert_eq. Qed.

Lemma upsert_sql_absent :
  t !! key_of p = None ->
  upsert_sql now p t !! key_of p = Some (inserted_row now p).
Proof. intros H. unfold upsert_sql. rewrite H. apply lookup_insert_eq. Qed.

Lemma upsert_sql_other k :
  k <> key_of p -> upsert_sql now p t !! k = t !! k.
Proof.
  intros H. unfold upsert_sql.
  destruct (t !! key_of p); apply lookup_insert_ne; congruence.
Qed.

Lemma upsert_sql_is_Some : is_Some (upsert_sql now p t !! key_of p).
Proof.
  destruct (t !! key_of p) as [old |] eqn:H.
  - rewrite (upsert_sql_present old H). eauto.
  - rewrite (upsert_sql_absent H). eauto.
Qed.

End Upsert.

Lemma updated_row_status_Fixed now p old :
  status old = "Fixed"%string -> status (updated_row now p old) = "Open"%string.
Proof. intros H. simpl. rewrite H. reflexivity. Qed.

Lemma updated_row_status_keep now p old :
  status old <> "Fixed"%string -> status (updated_row now p old) = status old.
Proof.
  intros H. simpl. destruct (String.eqb_spec (status old) "Fixed"); congruence.
Qed.

Lemma updated_row_not_Fixed now p old :
  status (updated_row now p old) <> "Fixed"%string.
Proof.
  simpl. destruct (String.eqb_spec (status old) "Fixed"); [discriminate | assumption].
Qed.

Lemma upsert_sql_not_Fixed now p t r :
  upsert_sql now p t !! key_of p = Some r -> status r <> "Fixed"%string.
Proof.
  destruct (t !! key_of p) as [old |] eqn:H.
  - rewrite (upsert_sql_present now p t old H). intros [= <-].
    apply updated_row_not_Fixed.
  - rewrite (upsert_sql_absent now p t H). intros [= <-]. discriminate.
Qed.

(** C1. On a row that exists, one upsert for its key turns [Fixed] into
    [Open] and leaves [Open] as it is; and no upsert sets a status to
    [Fixed]: a row that is [Fixed] after an upsert was in the table, the
    same, before it. *)
Theorem upsert_status_monotone (now : Z) (p : params) (t : table) (old : row) :
  t !! key_of p = Some old ->
  exists new,
    upsert_sql now p t !! key_of p = Some new /\
    (status old = "Fixed"%string -> status new = "Open"%string) /\
    (status old = "Open"%string -> status new = "Open"%string) /\
    status new <> "Fixed"%string /\
    (forall k r, upsert_sql now p t !! k = Some r ->
                 status r = "Fixed"%string -> t !! k = Some r).
Proof.
  intros Hold. exists (updated_row now p old).
  split; [apply upsert_sql_present; assumption |].
  split; [apply updated_row_status_Fixed |].
  split.
  { intros Hopen. rewrite updated_row_status_keep; [assumption |].
    rewrite Hopen. discriminate. }
  split; [apply updated_row_not_Fixed |].
  intros k r Hk Hfixed.
  destruct (decide (k = key_of p)) as [-> | Hne].
  - exfalso. eapply upsert_sql_not_Fixed; eassumption.
  - rewrite upsert_sql_other in Hk; assumption.
Qed.

(** C5. On a row that exists, an upsert writes [last_seen] and
    [technical_id] (and the status, by the rule of C1); [first_seen],
    the owner, the region, the score, the severity and the summary keep
    their values, and so does every other row of the table. *)
Theorem upsert_existing_frame (now : Z) (p : params) (t : table) (old : row) :
  t !! key_of p = Some old ->
  exists new,
    upsert_sql now p t !! key_of p = Some new /\
    last_seen new = now /\
    technical_id new = p_asset_id p /\
    first_seen new = first_seen old /\
    team_owner new = team_owner old /\
    region new = region old /\
    cvss_score new = cvss_score old /\
    severity new = severity old /\
    finding_summary new = finding_summary old /\
    (forall k, k <> key_of p -> upsert_sql now p t !! k = t !! k).
Proof.
  intros Hold. exists (updated_row now p old).
  split; [apply upsert_sql_present; assumption |].
  repeat (split; [reflexivity |]).
  intros k Hk. apply upsert_sql_other. assumption.
Qed.

(** C9. Two upserts in a row for one key: if the status of the row is the
    same before the second call as the first call left it, the second
    call leaves it as it is; in particular [Open] stays [Open]. *)
Theorem upsert_twice_status (now1 now2 : Z) (p1 p2 : params) (t t' : table)
    (r1 r1' : row) :
  key_of p2 = key_of p1 ->
  upsert_sql now1 p1 t !! key_of p1 = Some r1 ->
  t' !! key_of p1 = Some r1' ->
  status r1' = status r1 ->
  exists r2,
    upsert_sql now2 p2 t' !! key_of p1 = Some r2 /\
    status r2 = status r1 /\
    (status r1 = "Open"%string -> status r2 = "Open"%string).
Proof.
  intros Hkey H1 H1' Hsame.
  exists (updated_row now2 p2 r1').
  rewrite <- Hkey in H1' |- *.
  split; [apply upsert_sql_present; assumption |].
  assert (Hst : status (updated_row now2 p2 r1') = status r1).
  { rewrite updated_row_status_keep; [assumption |].
    rewrite Hsame. eapply upsert_sql_not_Fixed. eassumption. }
  split; [assumption |].
  intros Hopen. rewrite Hst. assumption.
Qed.

Lemma upsert_status_monotone_witness :
  exists new,
    upsert_sql 30 (sample_params "payment-service-3" "CVE-2024-1111") (sample_table "Fixed")
      !! sample_key = Some new /\
    status new = "Open"%string.
Proof.
  destruct (upsert_status_monotone 30 (sample_params "payment-service-3" "CVE-2024-1111")
              (sample_table "Fixed") (sample_row "Fixed"))
    as (new & Hnew & Hfixed & _).
  - reflexivity.
  - exists new. split; [exact Hnew | apply Hfixed; reflexivity].
Defined.

Lemma upsert_existing_frame_witness :
  exists new,
    upsert_sql 30 (sample_params "payment-service-3" "CVE-2024-1111") (sample_table "Fixed")
      !! sample_key = Some new /\
    last_seen new = 30%Z /\ first_seen new = 10%Z.
Proof.
  destruct (upsert_existing_frame 30 (sample_params "payment-service-3" "CVE-2024-1111")
              (sample_table "Fixed") (sample_row "Fixed"))
    as (new & Hnew & Hlast & _ & Hfirst & _).
  - reflexivity.
  - exists new. repeat split; assumption.
Defined.

Lemma upsert_twice_status_witness :
  exists r2,
    upsert_sql 31 (sample_params "payment-service-3" "CVE-2024-1111")
      (upsert_sql 30 (sample_params "payment-service-3" "CVE-2024-1111") (sample_table "Fixed"))
      !! sample_key = Some r2 /\
    status r2 = "Open"%string.
Proof.
  destruct (upsert_twice_status 30 31
              (sample_params "payment-service-3" "CVE-2024-1111")
              (sample_params "payment-service-3" "CVE-2024-1111")
              (sample_table "Fixed")
              (upsert_sql 30 (sample_params "payment-service-3" "CVE-2024-1111")
                 (sample_table "Fixed"))
              (updated_row 30 (sample_params "payment-service-3" "CVE-2024-1111")
                 (sample_row "Fixed"))
              (updated_row 30 (sample_params "payment-service-3" "CVE-2024-1111")
                 (sample_row "Fixed")))
    as (r2 & Hr2 & _ & Hopen); try reflexivity.
  exists r2. split; [exact Hr2 | apply Hopen; reflexivity].
Defined.

(** ** The transaction of [write_to_alloy] *)

Lemma executemany_committed now fault data :
  forall i c, committed (fst (executemany now fault i data c)) = committed c.
Proof.
  induction data as [| p rest IH]; intros i c; simpl; [reflexivity |].
  unfold bind, execute. destruct (fault i); simpl; [reflexivity |].
  rewrite IH. reflexivity.
Qed.

(** A refused statement stops [executemany] with an exception. *)
Lemma executemany_fault now fault data :
  forall i c j,
    j < length data -> is_Some (fault (i + j)) ->
    exists e, snd (executemany now fault i data c) = inl e.
Proof.
  induction data as [| p rest IH]; intros i c j Hj Hf; simpl in *; [lia |].
  unfold bind, execute.
  destruct (fault i) as [msg |] eqn:Hi; simpl; [eauto |].
  destruct j as [| j].
  - rewrite Nat.add_0_r, Hi in Hf. destruct Hf; discriminate.
  - apply (IH (S i) _ j); [lia |]. replace (S i + j) with (i + S j) by lia.
    assumption.
Qed.

(** With no refusal, every tuple is applied, in order, in the open
    transaction. *)
Lemma executemany_ok now fault data :
  forall i c,
    (forall j, j < length data -> fault (i + j) = None) ->
    data <> [] ->
    executemany now fault i data c =
      ({| committed := committed c;
          pending := Some (foldl (fun t p => upsert_sql now p t) (view c) data) |},
       inr tt).
Proof.
  induction data as [| p rest IH]; intros i c Hf Hne; [congruence |].
  simpl. unfold bind, execute.
  rewrite <- (Nat.add_0_r i) at 1. rewrite (Hf 0) by (simpl; lia).
  destruct rest as [| q rest'].
  - reflexivity.
  - rewrite IH; [reflexivity | | discriminate].
    intros j Hj. replace (S i + j) with (i + S j) by lia.
    apply Hf. simpl in *. lia.
Qed.

Lemma data_tuples_length batch data :
  data_tuples batch = inr data -> length data = length batch.
Proof.
  revert data. induction batch as [| r rest IH]; intros data; simpl.
  - intros [= <-]. reflexivity.
  - intros H. apply and_then_inr in H as (p & _ & H).
    apply and_then_inr in H as (ps & Hps & H).
    injection H as <-. simpl. rewrite (IH ps Hps). reflexivity.
Qed.

Lemma write_to_alloy_futures e k batch w :
  futures (fst (write_to_alloy e k batch w)) = futures w.
Proof.
  unfold write_to_alloy, bind, modify, lift_result, try_except, on_alloy,
    logging_info, logging_error, logging, rollback, modify, commit.
  simpl. destruct (data_tuples batch) as [ex | data]; simpl; [reflexivity |].
  destruct (executemany _ _ 0 data (alloy w)) as [c [ex | []]]; simpl;
    [reflexivity |].
  destruct (commit_fault e k); reflexivity.
Qed.

Lemma write_to_alloy_upserts e k batch w :
  upserts (fst (write_to_alloy e k batch w)) = (upserts w ++ [batch])%list.
Proof.
  unfold write_to_alloy, bind, modify, lift_result, try_except, on_alloy,
    logging_info, logging_error, logging, rollback, modify, commit.
  simpl. destruct (data_tuples batch) as [ex | data]; simpl; [reflexivity |].
  destruct (executemany _ _ 0 data (alloy w)) as [c [ex | []]]; simpl;
    [reflexivity |].
  destruct (commit_fault e k); reflexivity.
Qed.

(** [write_to_alloy] leaves no transaction open. *)
Lemma write_to_alloy_pending e k batch w :
  pending (alloy w) = None ->
  pending (alloy (fst (write_to_alloy e k batch w))) = None.
Proof.
  intros Hp.
  unfold write_to_alloy, bind, modify, lift_result, try_except, on_alloy,
    logging_info, logging_error, logging, rollback, modify, commit.
  simpl. destruct (data_tuples batch) as [ex | data]; simpl; [assumption |].
  destruct (executemany _ _ 0 data (alloy w)) as [c [ex | []]]; simpl;
    [reflexivity |].
  destruct (commit_fault e k); reflexivity.
Qed.


(** C4. A batch is all or nothing.  If building a tuple, one of the
    statements or the commit fails, the connection of the state sink is
    what it was before the call: the committed table is the same and no
    transaction is open.  Otherwise the committed table is the old one
    with every statement of the batch applied. *)
Theorem write_to_alloy_atomic (e : env) (k : nat) (batch : list dict) (w : world) :
  pending (alloy w) = None ->
  (batch_fails e k batch ->
   alloy (fst (write_to_alloy e k batch w)) = alloy w) /\
  (~ batch_fails e k batch ->
   exists data,
     data_tuples batch = inr data /\
     alloy (fst (write_to_alloy e k batch w)) =
       {| committed := foldl (fun t p => upsert_sql (sql_now e k) p t)
                         (committed (alloy w)) data;
          pending := None |}).
Proof.
  intros Hp.
  assert (Hsame : alloy w = {| committed := committed (alloy w); pending := None |}).
  { destruct (alloy w) as [cm pd]. simpl in *. subst pd. reflexivity. }
  assert (Hview : view (alloy w) = committed (alloy w)).
  { unfold view. rewrite Hp. reflexivity. }
  unfold write_to_alloy, bind, modify, lift_result, try_except, on_alloy,
    logging_info, logging_error, logging, rollback, modify, commit.
  simpl. destruct (data_tuples batch) as [ex | data] eqn:Hd; simpl.
  { split; [reflexivity |]. intros Hnf. exfalso. apply Hnf. left. eauto. }
  pose proof (executemany_committed (sql_now e k) (execute_fault e k) data 0
                (alloy w)) as Hcm.
  destruct (executemany _ _ 0 data (alloy w)) as [c [ex | []]] eqn:Hx; simpl in *.
  { (* a statement raised: rollback *)
    rewrite Hcm. split; [intros _; symmetry; exact Hsame |].
    intros Hnf. exfalso.
    assert (Hall : forall j, j < length data -> execute_fault e k (0 + j) = None).
    { intros j Hj. simpl. destruct (execute_fault e k j) eqn:Hfj; [| reflexivity].
      exfalso. apply Hnf. right. left. exists j.
      rewrite <- (data_tuples_length _ _ Hd). split; [assumption |].
      rewrite Hfj. eauto. }
    destruct data as [| p rest]; [simpl in Hx; discriminate |].
    rewrite executemany_ok in Hx by (assumption || discriminate).
    discriminate. }
  destruct (commit_fault e k) as [msg |] eqn:Hc; simpl.
  { (* the commit raised: rollback *)
    rewrite Hcm. split; [intros _; symmetry; exact Hsame |].
    intros Hnf. exfalso. apply Hnf. right. right. eauto. }
  split.
  - intros [[ex Hex] | [(i & Hi & Hf) | [x Hcf]]]; [congruence | | congruence].
    exfalso. rewrite <- (data_tuples_length _ _ Hd) in Hi.
    destruct (executemany_fault (sql_now e k) (execute_fault e k) data 0
                (alloy w) i Hi Hf) as [ex Hex].
    rewrite Hx in Hex. discriminate.
  - intros Hnf. exists data. split; [reflexivity |].
    destruct data as [| p rest].
    + simpl in Hx. injection Hx as <-. rewrite Hview. reflexivity.
    + rewrite executemany_ok in Hx; [| | discriminate].
      * injection Hx as <-. unfold view at 1. simpl. rewrite Hview. reflexivity.
      * intros j Hj. simpl. destruct (execute_fault e k j) eqn:Hfj; [| reflexivity].
        exfalso. apply Hnf. right. left. exists j.
        rewrite <- (data_tuples_length _ _ Hd). split; [assumption |].
        rewrite Hfj. eauto.
Qed.

(** ** Enrichment *)

Lemma to_uint_not_Nil n : Nat.to_uint n <> Decimal.Nil.
Proof.
  pose proof (DecimalNat.Unsigned.to_of (Nat.to_uint n)) as H.
  rewrite DecimalNat.Unsigned.of_to in H. rewrite H.
  apply DecimalFacts.unorm_nonnil.
Qed.

Lemma str_of_nat_NilEmpty n :
  Py.str_of_nat n = NilEmpty.string_of_uint (Nat.to_uint n).
Proof.
  unfold Py.str_of_nat, NilZero.string_of_uint.
  pose proof (to_uint_not_Nil n).
  destruct (Nat.to_uint n); congruence.
Qed.

(** A printed number has no ["-"] in it. *)
Lemma split_string_of_uint d :
  Py.split "-" (NilEmpty.string_of_uint d) = [NilEmpty.string_of_uint d].
Proof.
  induction d as [| d IH | d IH | d IH | d IH | d IH | d IH | d IH | d IH
                  | d IH | d IH]; [reflexivity | ..];
    simpl; rewrite IH; reflexivity.
Qed.

Lemma split_cons_other sep c s :
  Ascii.eqb c sep = false ->
  Py.split sep (String c s) =
  match Py.split sep s with
  | [] => [String c EmptyString]
  | p :: ps => String c p :: ps
  end.
Proof. intros H. simpl. rewrite H. reflexivity. Qed.

Lemma split_cons_sep sep s :
  Py.split sep (String sep s) = EmptyString :: Py.split sep s.
Proof. simpl. rewrite Ascii.eqb_refl. reflexivity. Qed.

Lemma split_asset_id n :
  Py.split "-" ("asset-" ++ Py.str_of_nat n) = ["asset"%string; Py.str_of_nat n].
Proof.
  rewrite str_of_nat_NilEmpty.
  change ("asset-" ++ ?x)%string
    with (String "a" (String "s" (String "s" (String "e" (String "t"
           (String "-" x)))))).
  rewrite !split_cons_other by reflexivity.
  rewrite split_cons_sep, split_string_of_uint. reflexivity.
Qed.

(** Reading the digits of a printed number, from an accumulator. *)
Lemma int_digits_string_of_uint d :
  forall acc : nat,
    Py.int_digits (Z.of_nat acc) (NilEmpty.string_of_uint d) =
    Some (Z.of_nat (Nat.of_uint_acc d acc)).
Proof.
  induction d as [| d IH | d IH | d IH | d IH | d IH | d IH | d IH | d IH
                  | d IH | d IH]; intros acc; [reflexivity | ..];
    cbn [NilEmpty.string_of_uint Py.int_digits Nat.of_uint_acc];
    match goal with
    | |- context [Py.digit_of ?c] =>
        let v := eval vm_compute in (Py.digit_of c) in
        change (Py.digit_of c) with v
    end;
    cbv iota; rewrite <- IH; f_equal; rewrite Nat.tail_mul_spec; lia.
Qed.

Lemma int_str_of_nat n : Py.int (Py.str_of_nat n) = inr (Z.of_nat n).
Proof.
  rewrite str_of_nat_NilEmpty.
  pose proof (DecimalNat.Unsigned.of_to n) as Hof.
  pose proof (to_uint_not_Nil n) as Hnil.
  unfold Nat.of_uint in Hof.
  destruct (Nat.to_uint n) as [| d | d | d | d | d | d | d | d | d | d];
    [congruence | ..];
    unfold Py.int; cbn [NilEmpty.string_of_uint Py.lstrip];
    match goal with
    | |- context [Py.is_space ?c] =>
        change (Py.is_space c) with false
    end;
    cbv iota;
    match goal with
    | |- context [Py.digit_of ?c] =>
        let v := eval vm_compute in (Py.digit_of c) in
        change (Py.digit_of c) with v
    end;
    cbv iota;
    match goal with
    | |- context [Py.int_digits ?z _] =>
        let k := eval vm_compute in (Z.to_nat z) in
        change z with (Z.of_nat k)
    end;
    rewrite int_digits_string_of_uint;
    cbn [Nat.of_uint_acc] in Hof; rewrite Nat.tail_mul_spec in Hof;
    simpl in Hof; rewrite Hof; reflexivity.
Qed.

Lemma asset_num_of_well_formed (record : dict) n :
  record !! "asset_id" = Some (VStr ("asset-" ++ Py.str_of_nat n)) ->
  asset_num_of record = inr (Z.of_nat n).
Proof.
  intros H. unfold asset_num_of, Py.getitem. rewrite H.
  rewrite split_asset_id. simpl. apply int_str_of_nat.
Qed.

Lemma stable_id_of_nat n :
  services !! (n mod 10) = Some (stable_id_of (Z.of_nat n)).
Proof.
  unfold stable_id_of.
  replace (Z.of_nat n mod 10)%Z with (Z.of_nat (n mod 10))
    by (rewrite Nat2Z.inj_mod; reflexivity).
  pose proof (Nat.mod_upper_bound n 10 ltac:(lia)) as Hlt.
  generalize dependent (n mod 10). intros m Hlt.
  do 10 (destruct m as [| m]; [reflexivity |]). lia.
Qed.



(** What [enrich_record] returns when the number is read. *)
Lemma enrich_record_ok (record : dict) asset_num :
  asset_num_of record = inr asset_num ->
  enrich_record record =
    inr (<["region" := VStr (region_of asset_num)]>
         (<["team_owner" := VStr (team_owner_of asset_num)]>
          (<["stable_identity" := VStr (stable_id_of asset_num)]> record))).
Proof. intros H. unfold enrich_record. rewrite H. reflexivity. Qed.

Lemma enrich_record_raises (record : dict) ex :
  asset_num_of record = inl ex -> enrich_record record = inl ex.
Proof. intros H. unfold enrich_record. rewrite H. reflexivity. Qed.

Lemma asset_num_of_asset_id (r1 r2 : dict) :
  r1 !! "asset_id" = r2 !! "asset_id" -> asset_num_of r1 = asset_num_of r2.
Proof. intros H. unfold asset_num_of, Py.getitem. rewrite H. reflexivity. Qed.

Lemma derived_enrich_record (record : dict) :
  derived (enrich_record record) =
  match asset_num_of record with
  | inl ex => inl ex
  | inr n => inr (Some (VStr (stable_id_of n)),
                  Some (VStr (team_owner_of n)),
                  Some (VStr (region_of n)))
  end.
Proof.
  unfold enrich_record. destruct (asset_num_of record) as [ex | n];
    [reflexivity |].
  unfold derived. repeat f_equal; simplify_map_eq; reflexivity.
Qed.

(** C8. Enrichment is a function of the technical identifier alone: two
    findings with the same ["asset_id"] get the same stable identity,
    owner and region (or raise the same exception), whatever else they
    hold; and enriching once more the finding that was enriched in place
    gives the same finding.  [enrich_record] has no access to the sinks,
    the log or a clock: its only argument is the finding. *)
Theorem enrich_record_deterministic (r1 r2 : dict) :
  r1 !! "asset_id" = r2 !! "asset_id" ->
  derived (enrich_record r1) = derived (enrich_record r2) /\
  (forall enriched,
     enrich_record r1 = inr enriched -> enrich_record enriched = inr enriched).
Proof.
  intros Hid. split.
  - rewrite !derived_enrich_record, (asset_num_of_asset_id r1 r2 Hid).
    reflexivity.
  - intros enriched. unfold enrich_record at 1.
    destruct (asset_num_of r1) as [ex | n] eqn:Hn; [discriminate |].
    intros [= <-].
    rewrite (enrich_record_ok _ n).
    + f_equal. apply map_eq. intros key.
      destruct (decide (key = "region"%string)) as [-> | H1];
        [simplify_map_eq; reflexivity |].
      destruct (decide (key = "team_owner"%string)) as [-> | H2];
        [simplify_map_eq; reflexivity |].
      destruct (decide (key = "stable_identity"%string)) as [-> | H3];
        simplify_map_eq; reflexivity.
    + rewrite <- Hn. apply asset_num_of_asset_id. simplify_map_eq. reflexivity.
Qed.


(** ** The loop of [run_poc] *)

Lemma flush_eq e batch w :
  flush e batch w =
  write_to_alloy e (length (futures w)) batch
    (add_future (archive_task e (length (futures w)) batch) w).
Proof.
  unfold flush, bind, gets, submit, archive_task. simpl.
  destruct (write_to_bq e (length (futures w)) batch []) as [lg r].
  reflexivity.
Qed.

Lemma flush_upserts e batch w :
  upserts (fst (flush e batch w)) = (upserts w ++ [batch])%list.
Proof. rewrite flush_eq, write_to_alloy_upserts. reflexivity. Qed.

Lemma flush_futures e batch w :
  futures (fst (flush e batch w)) =
  (futures w ++ [archive_task e (length (futures w)) batch])%list.
Proof. rewrite flush_eq, write_to_alloy_futures. reflexivity. Qed.

Lemma flush_pending e batch w :
  pending (alloy w) = None -> pending (alloy (fst (flush e batch w))) = None.
Proof. intros H. rewrite flush_eq. apply write_to_alloy_pending. exact H. Qed.

Lemma stream_loop_raise e n r s buf w ex :
  enrich_record r = inl ex ->
  stream_loop e n (r :: s) buf w = (w, inl ex).
Proof. intros H. simpl. unfold bind, lift_result. rewrite H. reflexivity. Qed.

Lemma stream_loop_step e n r s buf w x :
  enrich_record r = inr x ->
  stream_loop e n (r :: s) buf w =
  if n <=? length (buf ++ [x])%list then
    match flush e (buf ++ [x])%list w with
    | (w1, inl ex) => (w1, inl ex)
    | (w1, inr _) => stream_loop e n s [] w1
    end
  else stream_loop e n s (buf ++ [x])%list w.
Proof.
  intros H. simpl. unfold bind at 1, lift_result. rewrite H.
  destruct (n <=? length (buf ++ [x])%list); reflexivity.
Qed.

(** The loop over a stream in two parts. *)
Lemma stream_loop_app e n s1 s2 :
  forall buf w,
    stream_loop e n (s1 ++ s2)%list buf w =
    match stream_loop e n s1 buf w with
    | (w1, inl ex) => (w1, inl ex)
    | (w1, inr buf1) => stream_loop e n s2 buf1 w1
    end.
Proof.
  induction s1 as [| r s1 IH]; intros buf w; [reflexivity |].
  change ((r :: s1) ++ s2)%list with (r :: (s1 ++ s2))%list.
  destruct (enrich_record r) as [ex | x] eqn:Hr.
  - rewrite !(stream_loop_raise _ _ _ _ _ _ ex Hr). reflexivity.
  - rewrite !(stream_loop_step _ _ _ _ _ _ x Hr).
    destruct (n <=? length (buf ++ [x])%list); [| apply IH].
    destruct (flush e (buf ++ [x])%list w) as [w1 [ex | []]]; [reflexivity |].
    apply IH.
Qed.

Lemma run_poc_unfold e n s db :
  run_poc e n s (start db) =
  match bigquery_Client e, psycopg2_connect e with
  | Some ex, _ => (started db, inl ex)
  | None, Some ex => (started db, inl ex)
  | None, None =>
      match stream_loop e n s [] (started db) with
      | (w1, inl ex) => (w1, inl ex)
      | (w1, inr _) => (finish w1, inr tt)
      end
  end.
Proof.
  unfold run_poc, bind, logging_info, logging, modify, connect, raise, ret,
    on_alloy, close, rollback, modify, started.
  destruct (bigquery_Client e); [reflexivity |].
  destruct (psycopg2_connect e); [reflexivity |].
  destruct (stream_loop e n s [] _) as [w1 [ex | buf1]]; [reflexivity |].
  unfold finish, add_log. simpl. rewrite <- app_assoc. reflexivity.
Qed.

(** A run that completes has gone through the loop. *)
Lemma run_poc_completed e n s db w :
  run_poc e n s (start db) = (w, inr tt) ->
  bigquery_Client e = None /\ psycopg2_connect e = None /\
  exists w1 buf1,
    stream_loop e n s [] (started db) = (w1, inr buf1) /\ w = finish w1.
Proof.
  rewrite run_poc_unfold.
  destruct (bigquery_Client e); [discriminate |].
  destruct (psycopg2_connect e); [discriminate |].
  destruct (stream_loop e n s [] (started db)) as [w1 [ex | buf1]];
    [discriminate |].
  intros [= <-]. repeat split. exists w1, buf1. split; reflexivity.
Qed.

(** C3 as the program has it.  When the record after [before] cannot be
    enriched, the exception of [enrich_record] leaves [run_poc] at that
    record: given that the run over [before] alone completes, the run
    over the whole stream ends with that exception, in the world the loop
    over [before] had reached; nothing of [after] is enriched, archived
    or upserted. *)
Theorem run_poc_aborts_on_malformed (e : env) (n : nat)
    (before after : list dict) (bad : dict) (ex : exn) (db : table) (w0 : world) :
  enrich_record bad = inl ex ->
  run_poc e n before (start db) = (w0, inr tt) ->
  exists w,
    run_poc e n (before ++ bad :: after)%list (start db) = (w, inl ex) /\
    w0 = finish w /\
    upserts w = upserts w0 /\
    futures w = futures w0 /\
    committed (alloy w) = committed (alloy w0).
Proof.
  intros Hbad Hrun.
  apply run_poc_completed in Hrun as (Hbq & Hpg & w1 & buf1 & Hloop & ->).
  exists w1. rewrite run_poc_unfold, Hbq, Hpg, stream_loop_app, Hloop.
  rewrite (stream_loop_raise _ _ _ _ _ _ ex Hbad).
  repeat split; reflexivity.
Qed.

(** ** The batches the loop dispatches *)

Lemma length_concat_uniform {A} (n : nat) (l : list (list A)) :
  Forall (fun b => length b = n) l -> length (concat l) = n * length l.
Proof.
  induction 1 as [| b l Hb _ IH]; simpl; [lia |].
  rewrite length_app, IH, Hb. lia.
Qed.

(** Every flush takes a buffer of exactly [batch_size] findings, and the
    findings leave the loop in the order they came: the batches flushed,
    one after the other, then the buffer, are the buffer at the start then
    the findings enriched. *)
Lemma stream_loop_batches e n :
  0 < n ->
  forall s buf w w' buf',
    stream_loop e n s buf w = (w', inr buf') ->
    length buf < n ->
    exists enriched new,
      Forall2 (fun r x => enrich_record r = inr x) s enriched /\
      upserts w' = (upserts w ++ new)%list /\
      map task_batch (futures w') = (map task_batch (futures w) ++ new)%list /\
      Forall (fun b => length b = n) new /\
      (concat new ++ buf' = buf ++ enriched)%list /\
      length buf' < n.
Proof.
  intros Hn. induction s as [| r s IH]; intros buf w w' buf' Hloop Hbuf.
  - injection Hloop as <- <-. exists [], []. simpl.
    rewrite !app_nil_r. repeat split; (assumption || constructor).
  - destruct (enrich_record r) as [ex | x] eqn:Hr.
    { rewrite (stream_loop_raise _ _ _ _ _ _ ex Hr) in Hloop. discriminate. }
    rewrite (stream_loop_step _ _ _ _ _ _ x Hr) in Hloop.
    destruct (Nat.leb_spec n (length (buf ++ [x])%list)) as [Hfull | Hroom].
    + pose proof (flush_upserts e (buf ++ [x])%list w) as Hu.
      pose proof (flush_futures e (buf ++ [x])%list w) as Hf.
      destruct (flush e (buf ++ [x])%list w) as [w1 [ex | []]];
        [discriminate |]. simpl in Hu, Hf.
      destruct (IH [] w1 w' buf' Hloop) as
        (enriched & new & Hen & Hup & Hfu & Hall & Hcat & Hlt); [simpl; lia |].
      exists (x :: enriched), ((buf ++ [x])%list :: new).
      split; [constructor; assumption |].
      split; [rewrite Hup, Hu, <- app_assoc; reflexivity |].
      split.
      { rewrite Hfu, Hf, map_app, <- app_assoc. reflexivity. }
      split.
      { constructor; [| assumption].
        rewrite length_app in Hfull |- *. simpl in *. lia. }
      split; [| assumption].
      simpl. rewrite <- !app_assoc, Hcat. reflexivity.
    + destruct (IH (buf ++ [x])%list w w' buf' Hloop Hroom) as
        (enriched & new & Hen & Hup & Hfu & Hall & Hcat & Hlt).
      exists (x :: enriched), new.
      split; [constructor; assumption |].
      repeat (split; [assumption |]).
      split; [| assumption].
      rewrite Hcat, <- app_assoc. reflexivity.
Qed.

(** C2 on the program.  A run that completes has dispatched, to both
    writers, [L / n] batches (the quotient rounded down) of exactly [n]
    findings each: the first [n * (L / n)] enriched findings, in the order
    of the stream.  The [L mod n] findings after them are in no batch:
    the loop ends with them in the buffer and nothing flushes it. *)
Theorem run_poc_dispatches_full_batches (e : env) (n : nat) (stream : list dict)
    (db : table) (w : world) :
  0 < n ->
  run_poc e n stream (start db) = (w, inr tt) ->
  exists enriched,
    Forall2 (fun r x => enrich_record r = inr x) stream enriched /\
    map task_batch (futures w) = upserts w /\
    Forall (fun b => length b = n) (upserts w) /\
    length (upserts w) = length stream / n /\
    concat (upserts w) = take (n * (length stream / n)) enriched /\
    length (drop (n * (length stream / n)) enriched) = length stream mod n.
Proof.
  intros Hn Hrun.
  apply run_poc_completed in Hrun as (_ & _ & w1 & buf1 & Hloop & ->).
  destruct (stream_loop_batches e n Hn stream [] (started db) w1 buf1 Hloop)
    as (enriched & new & Hen & Hup & Hfu & Hall & Hcat & Hlt);
    [simpl; lia |].
  simpl in Hup, Hfu, Hcat. subst new.
  pose proof (Forall2_length _ _ _ Hen) as HL.
  pose proof (length_concat_uniform n _ Hall) as Hlen.
  assert (Hsum : length stream = n * length (upserts w1) + length buf1).
  { rewrite HL, <- Hcat, length_app, Hlen. reflexivity. }
  assert (Hq : length stream / n = length (upserts w1)).
  { symmetry. apply (Nat.div_unique _ _ _ (length buf1)); [assumption |].
    lia. }
  assert (Hr : length stream mod n = length buf1).
  { symmetry. apply (Nat.mod_unique _ _ (length (upserts w1))); assumption. }
  exists enriched. simpl.
  split; [assumption |].
  split; [assumption |].
  split; [assumption |].
  split; [symmetry; assumption |].
  rewrite Hq, <- Hcat, <- Hlen.
  split.
  - rewrite take_app_length. reflexivity.
  - rewrite drop_app_length. symmetry. assumption.
Qed.

(** ** The archive writer and the state writer *)

Lemma same_state_side_refl w : same_state_side w w.
Proof. repeat split. Qed.

Lemma write_to_alloy_same_state_side e a k batch w w' :
  same_state_side w w' ->
  same_state_side (fst (write_to_alloy e k batch w))
                  (fst (write_to_alloy (with_archive a e) k batch w')) /\
  snd (write_to_alloy (with_archive a e) k batch w') =
  snd (write_to_alloy e k batch w).
Proof.
  intros (Ha & Hl & Hu & Hf).
  unfold same_state_side, write_to_alloy, bind, modify, lift_result,
    try_except, on_alloy, logging_info, logging_error, logging, rollback,
    modify, commit.
  simpl.
  destruct (data_tuples batch) as [ex | data]; simpl;
    [repeat split; congruence |].
  rewrite Ha.
  destruct (executemany _ _ 0 data (alloy w)) as [c [ex | []]]; simpl;
    [repeat split; congruence |].
  destruct (commit_fault e k); simpl; repeat split; congruence.
Qed.

Lemma flush_same_state_side e a batch w w' :
  same_state_side w w' ->
  same_state_side (fst (flush e batch w))
                  (fst (flush (with_archive a e) batch w')) /\
  snd (flush (with_archive a e) batch w') = snd (flush e batch w).
Proof.
  intros Hs. rewrite !flush_eq.
  assert (Hk : length (futures w') = length (futures w)).
  { destruct Hs as (_ & _ & _ & Hf).
    rewrite <- (length_map task_batch (futures w')), Hf.
    apply length_map. }
  rewrite Hk. apply write_to_alloy_same_state_side.
  destruct Hs as (Ha & Hl & Hu & Hf).
  unfold same_state_side, add_future. simpl.
  repeat split; try assumption.
  rewrite !map_app, Hf. reflexivity.
Qed.

Lemma stream_loop_same_state_side a e n s :
  forall buf w w',
    same_state_side w w' ->
    same_state_side (fst (stream_loop e n s buf w))
                    (fst (stream_loop (with_archive a e) n s buf w')) /\
    snd (stream_loop (with_archive a e) n s buf w') =
    snd (stream_loop e n s buf w).
Proof.
  induction s as [| r s IH]; intros buf w w' Hs; [split; [exact Hs | reflexivity] |].
  destruct (enrich_record r) as [ex | x] eqn:Hr.
  - rewrite !(stream_loop_raise _ _ _ _ _ _ ex Hr). split; [exact Hs | reflexivity].
  - rewrite !(stream_loop_step _ _ _ _ _ _ x Hr).
    destruct (n <=? length (buf ++ [x])%list); [| apply IH; exact Hs].
    destruct (flush_same_state_side e a (buf ++ [x])%list w w' Hs) as [Hs1 Hr1].
    destruct (flush e (buf ++ [x])%list w) as [w1 r1].
    destruct (flush (with_archive a e) (buf ++ [x])%list w') as [w1' r1'].
    simpl in Hs1, Hr1. subst r1'.
    destruct r1 as [ex | []]; [split; [exact Hs1 | reflexivity] |].
    apply IH. exact Hs1.
Qed.

(** Every batch given to the archive writer is given to the state writer,
    also when the loop ends with an exception. *)
Lemma stream_loop_both_writers e n s :
  forall buf w,
    map task_batch (futures w) = upserts w ->
    map task_batch (futures (fst (stream_loop e n s buf w))) =
    upserts (fst (stream_loop e n s buf w)).
Proof.
  induction s as [| r s IH]; intros buf w Hw; [exact Hw |].
  destruct (enrich_record r) as [ex | x] eqn:Hr.
  - rewrite (stream_loop_raise _ _ _ _ _ _ ex Hr). exact Hw.
  - rewrite (stream_loop_step _ _ _ _ _ _ x Hr).
    destruct (n <=? length (buf ++ [x])%list); [| apply IH; exact Hw].
    pose proof (flush_upserts e (buf ++ [x])%list w) as Hu.
    pose proof (flush_futures e (buf ++ [x])%list w) as Hf.
    destruct (flush e (buf ++ [x])%list w) as [w1 r1]. simpl in Hu, Hf.
    assert (Hw1 : map task_batch (futures w1) = upserts w1).
    { rewrite Hf, Hu, map_app, Hw. reflexivity. }
    destruct r1 as [ex | []]; [exact Hw1 |].
    apply IH. exact Hw1.
Qed.

(** C6. Whatever the archive side does (replies with errors, raises
    inside its task, cannot encode a finding), the run is the same for
    the state writer and the main thread: replacing the archive side of
    the environment by any other leaves the outcome of [run_poc], the
    connection of the state sink, the lines of the main thread and the
    calls to [write_to_alloy] as they were; and every batch submitted to
    the archive writer is also given to the state writer. *)
Theorem archive_outcome_isolated (e a : env) (n : nat) (stream : list dict)
    (db : table) :
  snd (run_poc (with_archive a e) n stream (start db)) =
    snd (run_poc e n stream (start db)) /\
  alloy (fst (run_poc (with_archive a e) n stream (start db))) =
    alloy (fst (run_poc e n stream (start db))) /\
  log (fst (run_poc (with_archive a e) n stream (start db))) =
    log (fst (run_poc e n stream (start db))) /\
  upserts (fst (run_poc (with_archive a e) n stream (start db))) =
    upserts (fst (run_poc e n stream (start db))) /\
  map task_batch (futures (fst (run_poc (with_archive a e) n stream (start db)))) =
    upserts (fst (run_poc (with_archive a e) n stream (start db))).
Proof.
  rewrite !run_poc_unfold.
  change (bigquery_Client (with_archive a e)) with (bigquery_Client e).
  change (psycopg2_connect (with_archive a e)) with (psycopg2_connect e).
  destruct (bigquery_Client e); [repeat split |].
  destruct (psycopg2_connect e); [repeat split |].
  destruct (stream_loop_same_state_side a e n stream [] (started db) (started db)
              (same_state_side_refl _)) as [(Ha & Hl & Hu & Hf) Hr].
  pose proof (stream_loop_both_writers (with_archive a e) n stream []
                (started db) eq_refl) as Hboth.
  destruct (stream_loop e n stream [] (started db)) as [w1 r1].
  destruct (stream_loop (with_archive a e) n stream [] (started db))
    as [w1' r1'].
  simpl in Ha, Hl, Hu, Hf, Hr, Hboth. subst r1'.
  destruct r1 as [ex | buf1]; simpl.
  - repeat split; assumption.
  - rewrite Ha, Hl, Hu. repeat split. rewrite <- Hu. assumption.
Qed.

(** ** What a run prints *)







(** ** The theorems at sample inputs *)

Lemma write_to_alloy_atomic_witness :
  alloy (fst (write_to_alloy refusing_env 0 enriched_batch
                (start (sample_table "Fixed")))) =
  alloy (start (sample_table "Fixed")).
Proof.
  apply (write_to_alloy_atomic refusing_env 0 enriched_batch
           (start (sample_table "Fixed"))).
  - reflexivity.
  - right. left. exists 1%nat. split; [vm_compute; lia | vm_compute; eauto].
Defined.

Lemma enrich_record_deterministic_witness :
  derived (enrich_record (raw_finding "asset-37" "CVE-2024-1111")) =
  derived (enrich_record (raw_finding "asset-37" "CVE-2024-2222")).
Proof.
  apply (enrich_record_deterministic
           (raw_finding "asset-37" "CVE-2024-1111")
           (raw_finding "asset-37" "CVE-2024-2222")).
  reflexivity.
Defined.


Lemma run_poc_dispatches_full_batches_witness :
  exists enriched,
    Forall2 (fun r x => enrich_record r = inr x) (findings 250) enriched /\
    map length (upserts (fst (run_poc quiet_env 100 (findings 250) (start ∅))))
      = [100; 100]%nat /\
    concat (upserts (fst (run_poc quiet_env 100 (findings 250) (start ∅))))
      = take 200 enriched /\
    length (drop 200 enriched) = 50%nat.
Proof.
  destruct (run_poc_dispatches_full_batches quiet_env 100 (findings 250) ∅
              (fst (run_poc quiet_env 100 (findings 250) (start ∅))))
    as (enriched & Hen & _ & _ & _ & Hcat & Hrest).
  - lia.
  - rewrite (surjective_pairing (run_poc quiet_env 100 (findings 250) (start ∅)))
      at 1.
    f_equal; vm_compute; reflexivity.
  - exists enriched.
    split; [exact Hen |].
    split; [vm_compute; reflexivity |].
    split; [exact Hcat | exact Hrest].
Defined.

Lemma run_poc_aborts_on_malformed_witness :
  exists w,
    run_poc quiet_env 2 stream_with_malformed (start ∅)
      = (w, inl (ValueError "x")) /\
    map length (upserts w) = [2]%nat.
Proof.
  destruct (run_poc_aborts_on_malformed quiet_env 2 (findings 2) (findings 2)
              malformed_finding (ValueError "x") ∅
              (fst (run_poc quiet_env 2 (findings 2) (start ∅))))
    as (w & Hrun & _ & Hup & _).
  - vm_compute. reflexivity.
  - rewrite (surjective_pairing (run_poc quiet_env 2 (findings 2) (start ∅)))
      at 1.
    f_equal; vm_compute; reflexivity.
  - exists w. split; [exact Hrun |]. rewrite Hup. vm_compute. reflexivity.
Defined.


(** ** Runs of the model *)

(** The scenario of a reappearing finding: the key of [sample_key] is
    [Fixed], first seen at 10; a finding on asset 13 with that finding
    identifier arrives in a batch of its own at time 0. *)
Example reappearing_finding_is_reopened :
  committed (alloy (fst (run_poc quiet_env 1
                           [raw_finding "asset-13" "CVE-2024-1111"]
                           (start (sample_table "Fixed"))))) !! sample_key
  = Some {| technical_id := VStr "asset-13";
            team_owner := VStr "Platform Team";
            region := VStr "us-east1";
            cvss_score := VFloat 91;
            severity := VStr "Critical";
            status := "Open";
            first_seen := 10;
            last_seen := 0;
            finding_summary := VStr "Found earlier." |}.
Proof. vm_compute. reflexivity. Qed.

(** Before the rollback of [write_to_alloy_atomic_witness], the first
    statement of the batch had been applied in the open transaction. *)
Example refused_batch_was_half_applied :
  match data_tuples enriched_batch with
  | inl _ => False
  | inr data =>
      let c := fst (executemany 0 (execute_fault refusing_env 0) 0 data
                      (alloy (start (sample_table "Fixed")))) in
      size (committed c) = 1%nat /\ size <$> pending c = Some 2%nat
  end.
Proof. vm_compute. split; reflexivity. Qed.

(** With the archive down, every task ends with the exception, and the
    run completes with the four findings in the state sink. *)
Example archive_down_state_written :
  snd (run_poc archive_down_env 2 (findings 4) (start ∅)) = inr tt /\
  map task_result (futures (fst (run_poc archive_down_env 2 (findings 4) (start ∅))))
    = [inl (SinkError "503 Service Unavailable");
       inl (SinkError "503 Service Unavailable")] /\
  size (committed (alloy (fst (run_poc archive_down_env 2 (findings 4) (start ∅)))))
    = 4%nat.
Proof. repeat split; vm_compute; reflexivity. Qed.

(** ** The program against the specification *)

(** C3, counterexample.  The third finding of the stream has the
    identifier ["asset-x"].  The run does not skip it: it ends with the
    [ValueError] of [int("x")]; the two findings after it, which would
    fill a batch, are never dispatched. *)
Lemma malformed_record_aborts_run :
  enrich_record malformed_finding = inl (ValueError "x") /\
  snd (run_poc quiet_env 2 stream_with_malformed (start ∅))
    = inl (ValueError "x") /\
  map length (upserts (fst (run_poc quiet_env 2 stream_with_malformed (start ∅))))
    = [2]%nat /\
  log (fst (run_poc quiet_env 2 stream_with_malformed (start ∅))) =
    [(INFO, "Starting Mini-PoC Stream"%string);
     (INFO, "Upserted 2 records to AlloyDB."%string)].
Proof. repeat split; vm_compute; reflexivity. Qed.


(** * More on the state writer *)

(** ** One statement *)

Lemma updated_row_twice now p old :
  updated_row now p (updated_row now p old) = updated_row now p old.
Proof.
  unfold updated_row. simpl.
  destruct (String.eqb_spec (status old) "Fixed") as [Hf | Hf]; simpl;
    [reflexivity |].
  destruct (String.eqb_spec (status old) "Fixed"); [contradiction | reflexivity].
Qed.

(** X4.  The same finding twice in one transaction is the finding once: a
    duplicate in a batch changes nothing. *)
Theorem upsert_sql_idempotent (now : Z) (p : params) (t : table) :
  upsert_sql now p (upsert_sql now p t) = upsert_sql now p t.
Proof.
  unfold upsert_sql at 1.
  destruct (t !! key_of p) as [old |] eqn:H.
  - rewrite (upsert_sql_present now p t old H).
    unfold upsert_sql. rewrite H, insert_insert_eq, updated_row_twice.
    reflexivity.
  - rewrite (upsert_sql_absent now p t H).
    unfold upsert_sql. rewrite H, insert_insert_eq. reflexivity.
Qed.

(** X5.  Statements on two different keys can be run in either order. *)
Theorem upsert_sql_commute (now1 now2 : Z) (p1 p2 : params) (t : table) :
  key_of p1 <> key_of p2 ->
  upsert_sql now1 p1 (upsert_sql now2 p2 t) =
  upsert_sql now2 p2 (upsert_sql now1 p1 t).
Proof.
  intros Hne.
  unfold upsert_sql at 1 3.
  rewrite (upsert_sql_other now2 p2 t (key_of p1)) by assumption.
  rewrite (upsert_sql_other now1 p1 t (key_of p2)) by congruence.
  unfold upsert_sql.
  destruct (t !! key_of p1), (t !! key_of p2);
    apply insert_insert_ne; assumption.
Qed.

(** ** The history of a table *)

Lemma same_history_refl r : same_history r r.
Proof. repeat split. Qed.

Lemma same_history_trans r1 r2 r3 :
  same_history r1 r2 -> same_history r2 r3 -> same_history r1 r3.
Proof.
  unfold same_history. intros (? & ? & ? & ? & ? & ?) (? & ? & ? & ? & ? & ?).
  repeat split; congruence.
Qed.

Lemma keeps_history_refl t : keeps_history t t.
Proof.
  split.
  - intros k old H. exists old. split; [assumption | apply same_history_refl].
  - intros k new H _. assumption.
Qed.

Lemma keeps_history_trans t1 t2 t3 :
  keeps_history t1 t2 -> keeps_history t2 t3 -> keeps_history t1 t3.
Proof.
  intros [H12 F12] [H23 F23]. split.
  - intros k r1 Hk. destruct (H12 k r1 Hk) as (r2 & Hk2 & Hs12).
    destruct (H23 k r2 Hk2) as (r3 & Hk3 & Hs23).
    exists r3. split; [assumption |]. eapply same_history_trans; eassumption.
  - intros k r3 Hk3 Hfixed.
    pose proof (F23 k r3 Hk3 Hfixed) as Hk2. apply (F12 k r3 Hk2 Hfixed).
Qed.

Lemma keeps_history_upsert now p t : keeps_history t (upsert_sql now p t).
Proof.
  split.
  - intros k old Hk. destruct (decide (k = key_of p)) as [-> | Hne].
    + exists (updated_row now p old).
      split; [apply upsert_sql_present; assumption | repeat split].
    + exists old. rewrite upsert_sql_other by assumption.
      split; [assumption | apply same_history_refl].
  - intros k new Hk Hfixed. destruct (decide (k = key_of p)) as [-> | Hne].
    + exfalso. eapply upsert_sql_not_Fixed; eassumption.
    + rewrite upsert_sql_other in Hk; assumption.
Qed.

Lemma keeps_history_foldl now data :
  forall t, keeps_history t (foldl (fun t p => upsert_sql now p t) t data).
Proof.
  induction data as [| p data IH]; intros t; simpl; [apply keeps_history_refl |].
  eapply keeps_history_trans; [apply keeps_history_upsert | apply IH].
Qed.

(** ** A batch of statements *)

Lemma foldl_upsert_other now data :
  forall t k,
    k ∉ key_of <$> data ->
    foldl (fun t p => upsert_sql now p t) t data !! k = t !! k.
Proof.
  induction data as [| p data IH]; intros t k Hk; simpl; [reflexivity |].
  rewrite fmap_cons in Hk. apply not_elem_of_cons in Hk as [Hne Hk].
  rewrite IH by assumption. apply upsert_sql_other. assumption.
Qed.

(** The row of a key of the batch, after the batch. *)
Lemma foldl_upsert_present now data :
  forall t p,
    p ∈ data ->
    exists new,
      foldl (fun t p => upsert_sql now p t) t data !! key_of p = Some new /\
      last_seen new = now /\ status new <> "Fixed"%string.
Proof.
  induction data as [| q data IH] using rev_ind; intros t p Hp;
    [inversion Hp |].
  rewrite foldl_snoc.
  destruct (decide (key_of p = key_of q)) as [Heq | Hne].
  - rewrite Heq.
    destruct (upsert_sql_is_Some now q
                (foldl (fun t p => upsert_sql now p t) t data)) as [new Hnew].
    exists new. split; [assumption |].
    split; [| eapply upsert_sql_not_Fixed; eassumption].
    unfold upsert_sql in Hnew.
    destruct (foldl _ t data !! key_of q);
      rewrite lookup_insert_eq in Hnew; injection Hnew as <-; reflexivity.
  - rewrite upsert_sql_other by assumption.
    apply IH. apply elem_of_app in Hp as [Hp | Hp]; [assumption |].
    apply list_elem_of_singleton in Hp. congruence.
Qed.

(** A key that was not in the table gets a row first seen now, [Open]. *)
Lemma foldl_upsert_fresh now data :
  forall t k new,
    t !! k = None ->
    foldl (fun t p => upsert_sql now p t) t data !! k = Some new ->
    first_seen new = now /\ status new = "Open"%string.
Proof.
  induction data as [| q data IH] using rev_ind; intros t k new Hk Hnew;
    [simpl in Hnew; congruence |].
  rewrite foldl_snoc in Hnew.
  destruct (decide (k = key_of q)) as [-> | Hne].
  - destruct (foldl (fun t p => upsert_sql now p t) t data !! key_of q)
      as [old |] eqn:Hold.
    + rewrite (upsert_sql_present _ _ _ old Hold) in Hnew.
      injection Hnew as <-.
      destruct (IH t (key_of q) old Hk Hold) as [Hfirst Hopen].
      split; [exact Hfirst |]. simpl. rewrite Hopen. reflexivity.
    + rewrite (upsert_sql_absent _ _ _ Hold) in Hnew.
      injection Hnew as <-. split; reflexivity.
  - rewrite upsert_sql_other in Hnew by assumption. eauto.
Qed.

(** The technical identifier of a row is the one of the last finding of
    the batch on its key. *)
Lemma foldl_upsert_last now pre p post t new :
  key_of p ∉ key_of <$> post ->
  foldl (fun t p => upsert_sql now p t) t (pre ++ p :: post) !! key_of p
    = Some new ->
  technical_id new = p_asset_id p.
Proof.
  intros Hpost. rewrite foldl_app. simpl.
  rewrite foldl_upsert_other by assumption.
  unfold upsert_sql.
  destruct (foldl _ t pre !! key_of p);
    rewrite lookup_insert_eq; intros [= <-]; reflexivity.
Qed.

Lemma executemany_view now fault data :
  forall i c c',
    executemany now fault i data c = (c', inr tt) ->
    view c' = foldl (fun t p => upsert_sql now p t) (view c) data.
Proof.
  induction data as [| p data IH]; intros i c c' H; simpl in *.
  - injection H as <-. reflexivity.
  - unfold bind, execute in H. destruct (fault i); [discriminate |].
    apply IH in H. rewrite H. reflexivity.
Qed.

(** What [write_to_alloy] leaves committed: the table as it was, or the
    table with the whole batch applied. *)
Lemma write_to_alloy_committed e k batch w :
  pending (alloy w) = None ->
  pending (alloy (fst (write_to_alloy e k batch w))) = None /\
  (committed (alloy (fst (write_to_alloy e k batch w))) = committed (alloy w) \/
   exists data,
     data_tuples batch = inr data /\
     committed (alloy (fst (write_to_alloy e k batch w))) =
       foldl (fun t p => upsert_sql (sql_now e k) p t)
         (committed (alloy w)) data).
Proof.
  intros Hp. split; [apply write_to_alloy_pending; assumption |].
  assert (Hview : view (alloy w) = committed (alloy w)).
  { unfold view. rewrite Hp. reflexivity. }
  unfold write_to_alloy, bind, modify, lift_result, try_except, on_alloy,
    logging_info, logging_error, logging, rollback, modify, commit.
  simpl. destruct (data_tuples batch) as [ex | data]; simpl; [left; reflexivity |].
  pose proof (executemany_committed (sql_now e k) (execute_fault e k) data 0
                (alloy w)) as Hcm.
  destruct (executemany _ _ 0 data (alloy w)) as [c [ex | []]] eqn:Hx;
    simpl in *; [left; assumption |].
  destruct (commit_fault e k); simpl; [left; assumption |].
  right. exists data. split; [reflexivity |].
  rewrite (executemany_view _ _ _ _ _ _ Hx), Hview. reflexivity.
Qed.

(** X6.  The batch that goes through: with no open transaction, every key of
    the batch present and no refusal from the server, the committed table
    has a row for every finding of the batch, last seen at the time of
    the transaction and not [Fixed]; a row on a new key is first seen at
    that time and [Open]; the technical identifier of a row is that of
    the last finding of the batch on its key; every row on another key is
    as it was. *)
Theorem write_to_alloy_committed_batch (e : env) (k : nat) (batch : list dict)
    (w : world) (data : list params) :
  pending (alloy w) = None ->
  data_tuples batch = inr data ->
  (forall i, i < length batch -> execute_fault e k i = None) ->
  commit_fault e k = None ->
  let t := committed (alloy w) in
  let t' := committed (alloy (fst (write_to_alloy e k batch w))) in
  (forall key, key ∉ key_of <$> data -> t' !! key = t !! key) /\
  (forall p, p ∈ data ->
     exists new,
       t' !! key_of p = Some new /\
       last_seen new = sql_now e k /\
       status new <> "Fixed"%string /\
       (t !! key_of p = None ->
        first_seen new = sql_now e k /\ status new = "Open"%string)) /\
  (forall pre p post new,
     data = (pre ++ p :: post)%list ->
     key_of p ∉ key_of <$> post ->
     t' !! key_of p = Some new ->
     technical_id new = p_asset_id p).
Proof.
  intros Hp Hd Hex Hcm t t'.
  assert (Ht' : t' = foldl (fun t p => upsert_sql (sql_now e k) p t) t data).
  { subst t t'.
    assert (Hview : view (alloy w) = committed (alloy w)).
    { unfold view. rewrite Hp. reflexivity. }
    unfold write_to_alloy, bind, modify, lift_result, try_except, on_alloy,
      logging_info, logging_error, logging, rollback, modify, commit.
    simpl. rewrite Hd. simpl.
    destruct data as [| p rest].
    - simpl. rewrite Hcm. simpl. exact Hview.
    - rewrite executemany_ok; [| | discriminate].
      + simpl. rewrite Hcm. simpl. unfold view at 1. simpl.
        rewrite Hview. reflexivity.
      + intros j Hj. apply Hex.
        rewrite <- (data_tuples_length _ _ Hd). exact Hj. }
  rewrite Ht'. split; [| split].
  - intros key Hkey. apply foldl_upsert_other. assumption.
  - intros p Hin.
    destruct (foldl_upsert_present (sql_now e k) data t p Hin)
      as (new & Hnew & Hlast & Hst).
    exists new. repeat (split; [assumption |]).
    intros Hfresh. eapply foldl_upsert_fresh; eassumption.
  - intros pre p post new -> Hpost Hnew.
    eapply foldl_upsert_last; eassumption.
Qed.

(** * More on the coordinator *)

(** ** What every run keeps *)

(** A property of the connection that [write_to_alloy] keeps on batches
    whose findings satisfy [P] is kept by the loop over a stream whose
    enriched findings satisfy [P]. *)
Lemma stream_loop_alloy_inv (P : dict -> Prop) (J : conn -> Prop) e n :
  (forall k b w, Forall P b -> J (alloy w) ->
                 J (alloy (fst (write_to_alloy e k b w)))) ->
  forall s buf w,
    Forall (fun r => forall x, enrich_record r = inr x -> P x) s ->
    Forall P buf ->
    J (alloy w) ->
    J (alloy (fst (stream_loop e n s buf w))).
Proof.
  intros Hstep. induction s as [| r s IH]; intros buf w Hs Hbuf Hw;
    [exact Hw |].
  inversion Hs as [| ? ? Hr Hs']; subst.
  destruct (enrich_record r) as [ex | x] eqn:Hx.
  - rewrite (stream_loop_raise _ _ _ _ _ _ ex Hx). exact Hw.
  - rewrite (stream_loop_step _ _ _ _ _ _ x Hx).
    assert (Hbuf' : Forall P (buf ++ [x])%list).
    { apply Forall_app. split; [assumption |]. constructor; auto. }
    destruct (n <=? length (buf ++ [x])%list); [| apply IH; assumption].
    assert (Hw1 : J (alloy (fst (flush e (buf ++ [x])%list w)))).
    { rewrite flush_eq. apply Hstep; assumption. }
    destruct (flush e (buf ++ [x])%list w) as [w1 [ex | []]];
      [exact Hw1 |].
    apply IH; [assumption | constructor | exact Hw1].
Qed.

Lemma run_poc_alloy_inv (P : dict -> Prop) (J : conn -> Prop) e n s db :
  (forall k b w, Forall P b -> J (alloy w) ->
                 J (alloy (fst (write_to_alloy e k b w)))) ->
  (forall c, J c -> J {| committed := committed c; pending := None |}) ->
  Forall (fun r => forall x, enrich_record r = inr x -> P x) s ->
  J {| committed := db; pending := None |} ->
  J (alloy (fst (run_poc e n s (start db)))).
Proof.
  intros Hstep Hclose Hs Hdb. rewrite run_poc_unfold.
  destruct (bigquery_Client e); [exact Hdb |].
  destruct (psycopg2_connect e); [exact Hdb |].
  pose proof (stream_loop_alloy_inv P J e n Hstep s [] (started db) Hs
                (List.Forall_nil _) Hdb) as Hloop.
  destruct (stream_loop e n s [] (started db)) as [w1 [ex | buf1]];
    [exact Hloop |].
  apply Hclose. exact Hloop.
Qed.

(** X11.  However a run ends (completed, aborted at a connection, at a finding
    that cannot be enriched or at one that lacks a key), it leaves no
    transaction open on the state sink. *)
Theorem run_poc_leaves_no_transaction (e : env) (n : nat) (stream : list dict)
    (db : table) :
  pending (alloy (fst (run_poc e n stream (start db)))) = None.
Proof.
  apply (run_poc_alloy_inv (fun _ => True) (fun c => pending c = None)).
  - intros k b w _ Hw. apply write_to_alloy_pending. exact Hw.
  - reflexivity.
  - apply Forall_forall. intros; exact I.
  - reflexivity.
Qed.

(** X12.  However a run ends, the state sink has lost no row; every row that
    was there has its [first_seen], owner, region, score, severity and
    summary as they were; and every row that is [Fixed] at the end was
    there at the start and has not been written. *)
Theorem run_poc_keeps_history (e : env) (n : nat) (stream : list dict)
    (db : table) :
  keeps_history db (committed (alloy (fst (run_poc e n stream (start db))))).
Proof.
  apply (run_poc_alloy_inv (fun _ => True)
           (fun c => pending c = None /\ keeps_history db (committed c))).
  - intros k b w _ [Hp Hk].
    destruct (write_to_alloy_committed e k b w Hp) as [Hp' [Hsame | (data & _ & Hnew)]].
    + split; [assumption |]. rewrite Hsame. assumption.
    + split; [assumption |]. rewrite Hnew.
      eapply keeps_history_trans; [exact Hk | apply keeps_history_foldl].
  - intros c [_ Hk]. split; [reflexivity | exact Hk].
  - apply Forall_forall. intros; exact I.
  - split; [reflexivity | apply keeps_history_refl].
Qed.

(** ** Failures that end the run *)

(** X10.  When a connection cannot be made the run ends with that exception
    before any finding is read: only the opening line is logged, nothing
    is dispatched, the state sink is as it was. *)
Theorem run_poc_connection_failure (e : env) (n : nat) (stream : list dict)
    (db : table) (ex : exn) :
  bigquery_Client e = Some ex \/
  (bigquery_Client e = None /\ psycopg2_connect e = Some ex) ->
  run_poc e n stream (start db) =
    ({| alloy := {| committed := db; pending := None |};
        futures := [];
        log := [(INFO, "Starting Mini-PoC Stream"%string)];
        upserts := [] |}, inl ex).
Proof.
  intros [Hbq | [Hbq Hpg]]; rewrite run_poc_unfold, Hbq; [| rewrite Hpg].
  - destruct (psycopg2_connect e); reflexivity.
  - reflexivity.
Qed.

Lemma data_tuple_raises x ex :
  data_tuple x = inl ex -> exists key, ex = KeyError key /\ x !! key = None.
Proof.
  unfold data_tuple, and_then, Py.getitem.
  repeat match goal with
         | |- context [?d !! ?k] =>
             let H := fresh "H" in
             destruct (d !! k) eqn:H;
             [| intros [= <-]; eexists; split; [reflexivity | exact H]]
         end.
  discriminate.
Qed.

Lemma data_tuple_missing x key :
  key ∈ ["stable_identity"; "asset_id"; "team_owner"; "region"; "cve_id";
         "cvss_score"; "severity"; "summary"]%string ->
  x !! key = None ->
  exists ex, data_tuple x = inl ex.
Proof.
  intros Hkey Hnone.
  destruct (data_tuple x) as [ex | p] eqn:Hp; [eauto |]. exfalso.
  unfold data_tuple, and_then, Py.getitem in Hp.
  repeat match type of Hp with
         | context [?d !! ?k] =>
             let H := fresh "H" in
             destruct (d !! k) eqn:H; [| discriminate]
         end.
  repeat (apply elem_of_cons in Hkey as [-> | Hkey]; [congruence |]).
  inversion Hkey.
Qed.

Lemma data_tuples_raises batch ex :
  data_tuples batch = inl ex ->
  exists x key, x ∈ batch /\ ex = KeyError key /\ x !! key = None.
Proof.
  induction batch as [| x batch IH]; simpl; [discriminate |].
  destruct (data_tuple x) as [ex' | p] eqn:Hx; simpl.
  - intros [= <-]. destruct (data_tuple_raises x ex' Hx) as (key & -> & Hk).
    exists x, key. split; [left | split; [reflexivity | exact Hk]].
  - destruct (data_tuples batch) as [ex' | ps]; simpl; [| discriminate].
    intros [= <-]. destruct (IH eq_refl) as (y & key & Hy & -> & Hk).
    exists y, key. split; [right; exact Hy | split; [reflexivity | exact Hk]].
Qed.

Lemma data_tuples_missing batch x :
  x ∈ batch -> (exists ex, data_tuple x = inl ex) ->
  exists ex, data_tuples batch = inl ex.
Proof.
  induction batch as [| y batch IH]; intros Hin Hx; [inversion Hin |].
  simpl. destruct (data_tuple y) as [ex | p] eqn:Hy; simpl; [eauto |].
  apply elem_of_cons in Hin as [-> | Hin].
  - destruct Hx as [ex Hx]. congruence.
  - destruct (IH Hin Hx) as [ex ->]. simpl. eauto.
Qed.

(** X7.  A finding without one of the eight keys of the tuple is not a batch
    failure: the tuples are built before the [try], so a [KeyError] on a
    key that a finding of the batch lacks leaves [write_to_alloy], and
    with it the run.
    The batch has been submitted to the archive by then; the state sink
    and the log of the main thread are untouched. *)
Theorem flush_missing_key (e : env) (batch : list dict) (w : world)
    (x : dict) (key : string) :
  x ∈ batch ->
  key ∈ ["stable_identity"; "asset_id"; "team_owner"; "region"; "cve_id";
         "cvss_score"; "severity"; "summary"]%string ->
  x !! key = None ->
  exists y missing,
    y ∈ batch /\ y !! missing = None /\
    snd (flush e batch w) = inl (KeyError missing) /\
    alloy (fst (flush e batch w)) = alloy w /\
    log (fst (flush e batch w)) = log w /\
    futures (fst (flush e batch w)) =
      (futures w ++ [archive_task e (length (futures w)) batch])%list.
Proof.
  intros Hin Hkey Hnone.
  destruct (data_tuples_missing batch x Hin (data_tuple_missing x key Hkey Hnone))
    as [ex Hex].
  destruct (data_tuples_raises batch ex Hex) as (y & missing & Hy & -> & Hmiss).
  exists y, missing. rewrite flush_futures.
  repeat (split; [assumption || reflexivity |]).
  rewrite flush_eq.
  unfold write_to_alloy, bind, modify, lift_result. simpl. rewrite Hex.
  repeat split.
Qed.

(** ** Batch sizes *)

Lemma stream_loop_size_zero e s :
  forall w, stream_loop e 0 s [] w = stream_loop e 1 s [] w.
Proof.
  induction s as [| r s IH]; intros w; [reflexivity |].
  destruct (enrich_record r) as [ex | x] eqn:Hx.
  - rewrite !(stream_loop_raise _ _ _ _ _ _ ex Hx). reflexivity.
  - rewrite !(stream_loop_step _ _ _ _ _ _ x Hx). simpl.
    destruct (flush e [x] w) as [w1 [ex | []]]; [reflexivity | apply IH].
Qed.

Lemma concat_singletons {A} (l : list (list A)) :
  Forall (fun b => length b = 1) l -> l = (fun x => [x]) <$> concat l.
Proof.
  induction 1 as [| b l Hb _ IH]; [reflexivity |].
  destruct b as [| x [| y b]]; simpl in Hb; try discriminate.
  cbn [concat app]. rewrite fmap_cons. f_equal. exact IH.
Qed.

(** X13.  A batch size of 0 is a batch size of 1: the buffer is flushed at
    every finding.  With either, a run that completes has dispatched
    every enriched finding, each as a batch of its own, in the order of
    the stream. *)
Theorem run_poc_batch_size_at_most_one (e : env) (n : nat) (stream : list dict)
    (db : table) (w : world) :
  n <= 1 ->
  run_poc e n stream (start db) = (w, inr tt) ->
  run_poc e 0 stream (start db) = run_poc e 1 stream (start db) /\
  exists enriched,
    Forall2 (fun r x => enrich_record r = inr x) stream enriched /\
    upserts w = (fun x => [x]) <$> enriched /\
    map task_batch (futures w) = upserts w.
Proof.
  intros Hn Hrun. split.
  { rewrite !run_poc_unfold, stream_loop_size_zero. reflexivity. }
  assert (Hrun1 : run_poc e 1 stream (start db) = (w, inr tt)).
  { destruct n as [| [| n]]; [| assumption | lia].
    rewrite run_poc_unfold, stream_loop_size_zero, <- run_poc_unfold in Hrun.
    exact Hrun. }
  apply run_poc_completed in Hrun1 as (_ & _ & w1 & buf1 & Hloop & ->).
  destruct (stream_loop_batches e 1 ltac:(lia) stream [] (started db) w1 buf1
              Hloop) as (enriched & new & Hen & Hup & Hfu & Hall & Hcat & Hlt);
    [simpl; lia |].
  simpl in Hup, Hfu, Hcat. subst new.
  destruct buf1; [| simpl in Hlt; lia]. rewrite app_nil_r in Hcat.
  exists enriched. simpl.
  split; [assumption |].
  split; [| assumption].
  rewrite <- Hcat. apply concat_singletons. assumption.
Qed.

(** X14.  When the batch size divides the length of the stream, a run that
    completes has dispatched every enriched finding, once, in the order
    of the stream: the batches given to the two writers, one after the
    other, are the enriched stream. *)
Theorem run_poc_dispatches_all_when_divisible (e : env) (n : nat)
    (stream : list dict) (db : table) (w : world) :
  0 < n ->
  length stream mod n = 0 ->
  run_poc e n stream (start db) = (w, inr tt) ->
  exists enriched,
    Forall2 (fun r x => enrich_record r = inr x) stream enriched /\
    concat (upserts w) = enriched /\
    Forall (fun b => length b = n) (upserts w) /\
    map task_batch (futures w) = upserts w.
Proof.
  intros Hn Hmod Hrun.
  apply run_poc_completed in Hrun as (_ & _ & w1 & buf1 & Hloop & ->).
  destruct (stream_loop_batches e n Hn stream [] (started db) w1 buf1 Hloop)
    as (enriched & new & Hen & Hup & Hfu & Hall & Hcat & Hlt);
    [simpl; lia |].
  simpl in Hup, Hfu, Hcat. subst new.
  pose proof (Forall2_length _ _ _ Hen) as HL.
  pose proof (length_concat_uniform n _ Hall) as Hlen.
  assert (Hsum : length stream = n * length (upserts w1) + length buf1).
  { rewrite HL, <- Hcat, length_app, Hlen. reflexivity. }
  assert (Hr : length stream mod n = length buf1).
  { symmetry. apply (Nat.mod_unique _ _ (length (upserts w1))); assumption. }
  destruct buf1; [| simpl in Hr; lia]. rewrite app_nil_r in Hcat.
  exists enriched. simpl. repeat split; assumption.
Qed.

(** * More on enrichment and on the archive writer *)

(** ** What [enrich_record] reads and writes *)

(** X1.  Enrichment keeps the finding: the keys of the enriched finding are
    those of the raw one and the three derived ones, and every other key
    holds what it held. *)
Theorem enrich_record_keeps_fields (record enriched : dict) :
  enrich_record record = inr enriched ->
  dom enriched =
    ({["stable_identity"; "team_owner"; "region"]} ∪ dom record : gset string) /\
  (forall key,
     key ∉ ["stable_identity"; "team_owner"; "region"]%string ->
     enriched !! key = record !! key).
Proof.
  unfold enrich_record. destruct (asset_num_of record) as [ex | n];
    [discriminate |].
  intros [= <-]. split.
  - rewrite !dom_insert_L. apply set_eq. intros key.
    rewrite !elem_of_union, !elem_of_singleton. tauto.
  - intros key Hkey.
    assert (H1 : "region"%string <> key)
      by (intros <-; apply Hkey; repeat constructor).
    assert (H2 : "team_owner"%string <> key)
      by (intros <-; apply Hkey; repeat constructor).
    assert (H3 : "stable_identity"%string <> key)
      by (intros <-; apply Hkey; repeat constructor).
    rewrite !lookup_insert_ne by assumption. reflexivity.
Qed.

Lemma append_empty (s : string) : (s ++ EmptyString)%string = s.
Proof.
  induction s as [| c s IH]; [reflexivity |].
  change (String c s ++ EmptyString)%string with (String c (s ++ EmptyString)).
  rewrite IH. reflexivity.
Qed.

Lemma split_free sep s : free_of sep s -> Py.split sep s = [s].
Proof.
  unfold free_of. induction s as [| c s IH]; intros Hfree; [reflexivity |].
  simpl in Hfree.
  rewrite split_cons_other.
  - rewrite IH; [reflexivity |]. intros Hin. apply Hfree. right. exact Hin.
  - apply Ascii.eqb_neq. intros ->. apply Hfree. left. reflexivity.
Qed.

Lemma split_free_app sep p rest :
  free_of sep p ->
  Py.split sep (p ++ String sep rest) = p :: Py.split sep rest.
Proof.
  unfold free_of. induction p as [| c p IH]; intros Hfree.
  - apply split_cons_sep.
  - simpl in Hfree.
    change (String c p ++ String sep rest)%string
      with (String c (p ++ String sep rest)).
    rewrite split_cons_other.
    + rewrite IH; [reflexivity |]. intros Hin. apply Hfree. right. exact Hin.
    + apply Ascii.eqb_neq. intros ->. apply Hfree. left. reflexivity.
Qed.

(** X2.  A technical identifier with no ["-"] has no second piece:
    [enrich_record] raises [IndexError]; and a finding with no
    ["asset_id"] raises [KeyError]. *)
Theorem enrich_record_no_separator (record : dict) (asset_id : string) :
  free_of "-" asset_id ->
  (record !! "asset_id" = Some (VStr asset_id) ->
   enrich_record record = inl IndexError) /\
  (record !! "asset_id" = None ->
   enrich_record record = inl (KeyError "asset_id")).
Proof.
  intros Hfree. split; intros Hid; apply enrich_record_raises;
    unfold asset_num_of, Py.getitem; rewrite Hid; [| reflexivity].
  rewrite (split_free _ _ Hfree). reflexivity.
Qed.

(** X3.  Only the piece between the first and the second ["-"] is read: the
    number of an identifier [prefix-piece] or [prefix-piece-more] is
    [int(piece)], so the finding is enriched as the one on
    ["asset-" ++ piece] is. *)
Theorem enrich_record_reads_second_piece (record : dict)
    (prefix piece more : string) :
  free_of "-" prefix ->
  free_of "-" piece ->
  more = EmptyString \/ (exists rest, more = String "-" rest) ->
  record !! "asset_id" = Some (VStr (prefix ++ String "-" (piece ++ more))) ->
  asset_num_of record = Py.int piece /\
  derived (enrich_record record) =
  derived (enrich_record (<["asset_id" := VStr ("asset-" ++ piece)]> record)).
Proof.
  intros Hprefix Hpiece Hmore Hid.
  assert (Hsplit : forall p, free_of "-" p ->
            Py.index (Py.split "-" (p ++ String "-" (piece ++ more))) 1
            = inr piece).
  { intros p Hp. rewrite (split_free_app _ _ _ Hp).
    destruct Hmore as [-> | [rest ->]].
    - rewrite append_empty, (split_free _ _ Hpiece). reflexivity.
    - rewrite (split_free_app _ _ _ Hpiece). reflexivity. }
  assert (Hnum : asset_num_of record = Py.int piece).
  { unfold asset_num_of, Py.getitem. rewrite Hid, (Hsplit prefix Hprefix).
    reflexivity. }
  split; [exact Hnum |].
  rewrite !derived_enrich_record, Hnum.
  replace (asset_num_of (<["asset_id" := VStr ("asset-" ++ piece)]> record))
    with (Py.int piece); [reflexivity |].
  unfold asset_num_of, Py.getitem. rewrite lookup_insert_eq.
  change ("asset-" ++ piece)%string with ("asset" ++ String "-" piece)%string.
  rewrite (split_free_app "-" "asset" piece), (split_free _ _ Hpiece);
    [reflexivity |].
  unfold free_of. simpl. intros H.
  repeat (destruct H as [H | H]; [discriminate |]). exact H.
Qed.

(** ** The rows of the archive *)

Lemma rows_to_insert_rows e k batch :
  forall i rows,
    rows_to_insert e k i batch = inr rows ->
    Forall2 (archive_row_of e) batch rows.
Proof.
  induction batch as [| item batch IH]; intros i rows; simpl.
  - intros [= <-]. constructor.
  - unfold and_then, Py.getitem.
    destruct (item !! "asset_id") as [a |] eqn:Ha; [| discriminate].
    destruct (item !! "scan_date") as [d |] eqn:Hd; [| discriminate].
    destruct (item !! "cve_id") as [c |] eqn:Hc; [| discriminate].
    destruct (json_dumps e item) as [ex | blob] eqn:Hj; [discriminate |].
    destruct (rows_to_insert e k (S i) batch) as [ex | rest] eqn:Hrest;
      [discriminate |].
    intros [= <-]. constructor; [| eapply IH; eassumption].
    unfold archive_row_of.
    split; [simplify_map_eq; reflexivity |].
    split; [simplify_map_eq; reflexivity |].
    split; [simplify_map_eq; reflexivity |].
    split; [exists blob; split; [exact Hj | simplify_map_eq; reflexivity] |].
    rewrite !dom_insert_L, dom_empty_L. set_solver.
Qed.

(** X8.  When the archive task of a batch returns, it has sent to
    [BQ_TABLE_ID] one row for each finding of the batch, in the order of
    the batch: the three indexed columns of the finding, the finding as
    JSON and the time of ingestion.  It logs the batch as archived when
    the reply holds no error, and the errors otherwise, without raising. *)
Theorem write_to_bq_rows (e : env) (k : nat) (batch : list dict)
    (lines : list log_record) :
  write_to_bq e k batch [] = (lines, inr tt) ->
  exists rows errors,
    rows_to_insert e k 0 batch = inr rows /\
    Forall2 (archive_row_of e) batch rows /\
    insert_rows_json e k BQ_TABLE_ID rows = inr errors /\
    lines =
      [(INFO, "Archiving " ++ Py.str_of_nat (length batch)
              ++ " records to BigQuery ...");
       if bool_decide (errors = [])
       then (INFO, "Archived " ++ Py.str_of_nat (length batch)
                   ++ " records to BigQuery.")
       else (ERROR, "BigQuery Errors: " ++ repr_list errors)]%string.
Proof.
  unfold write_to_bq, bind, lift_result, logging, modify.
  destruct (rows_to_insert e k 0 batch) as [ex | rows] eqn:Hrows;
    [discriminate |].
  simpl.
  destruct (insert_rows_json e k BQ_TABLE_ID rows) as [ex | errors] eqn:Hins;
    [discriminate |].
  intros H. exists rows, errors.
  split; [reflexivity |].
  split; [eapply rows_to_insert_rows; eassumption |].
  split; [exact Hins |].
  destruct errors as [| err errors]; simpl in H; injection H as <-; reflexivity.
Qed.

Lemma rows_to_insert_missing e k batch x key :
  x ∈ batch ->
  key ∈ ["asset_id"; "scan_date"; "cve_id"]%string ->
  x !! key = None ->
  forall i, exists ex, rows_to_insert e k i batch = inl ex.
Proof.
  intros Hin Hkey Hnone.
  induction batch as [| item batch IH]; intros i; [inversion Hin |].
  simpl. unfold and_then, Py.getitem.
  destruct (item !! "asset_id") as [a |] eqn:Ha; [| eauto].
  destruct (item !! "scan_date") as [d |] eqn:Hd; [| eauto].
  destruct (item !! "cve_id") as [c |] eqn:Hc; [| eauto].
  destruct (json_dumps e item) as [ex | blob]; [eauto |].
  apply elem_of_cons in Hin as [-> | Hin].
  - exfalso.
    repeat (apply elem_of_cons in Hkey as [-> | Hkey]; [congruence |]).
    inversion Hkey.
  - destruct (IH Hin (S i)) as [ex ->]. eauto.
Qed.

(** X9.  An archive task fails in silence when a finding of its batch has no
    ["asset_id"], ["scan_date"] or ["cve_id"]: the task raises before its
    first line is logged and before anything is sent; the exception stays
    in the future of the task, and what [flush] logs for the batch is the
    line of the state writer alone. *)
Theorem write_to_bq_silent_failure (e : env) (batch : list dict) (w : world)
    (x : dict) (key : string) :
  x ∈ batch ->
  key ∈ ["asset_id"; "scan_date"; "cve_id"]%string ->
  x !! key = None ->
  exists ex,
    rows_to_insert e (length (futures w)) 0 batch = inl ex /\
    futures (fst (flush e batch w)) =
      (futures w ++ [{| task_batch := batch; task_log := [];
                        task_result := inl ex |}])%list.
Proof.
  intros Hin Hkey Hnone.
  destruct (rows_to_insert_missing e (length (futures w)) batch x key
              Hin Hkey Hnone 0) as [ex Hex].
  exists ex. split; [exact Hex |].
  rewrite flush_futures. unfold archive_task, write_to_bq, bind, lift_result.
  rewrite Hex. reflexivity.
Qed.

(** * The record source and the program *)

Lemma choice_elem {A} (draw : nat) (l : list A) :
  l <> [] -> exists x, choice draw l = inr x /\ x ∈ l.
Proof.
  destruct l as [| a l]; [congruence |]. intros _.
  unfold choice, Py.index.
  destruct ((a :: l) !! (draw mod length (a :: l))) as [x |] eqn:H.
  - exists x. split; [reflexivity |]. eapply list_elem_of_lookup_2. exact H.
  - apply lookup_ge_None in H.
    pose proof (Nat.mod_upper_bound draw (length (a :: l))) as Hlt.
    simpl in *. lia.
Qed.

Lemma assets_elem asset :
  asset ∈ assets ->
  exists i, 1 <= i <= 100 /\ asset = ("asset-" ++ Py.str_of_nat i)%string.
Proof.
  intros H. apply list_elem_of_In, in_map_iff in H as (i & <- & Hi).
  apply in_seq in Hi. exists i. split; [lia | reflexivity].
Qed.

Lemma length_cves src : length (cves src) = 50.
Proof. unfold cves. rewrite length_map, length_seq. reflexivity. Qed.

Lemma randint_range lo hi draw :
  (lo <= hi)%Z -> (lo <= randint lo hi draw <= hi)%Z.
Proof.
  intros H. unfold randint.
  pose proof (Z.mod_pos_bound (Z.of_nat draw) (hi - lo + 1) ltac:(lia)). lia.
Qed.

Lemma scan_record_generated src i :
  exists r, scan_record src i = inr r /\ generated_record src r.
Proof.
  unfold scan_record.
  destruct (choice_elem (draw_asset src i) assets) as (asset & -> & Hasset);
    [discriminate |].
  destruct (choice_elem (draw_cve src i) (cves src)) as (cve & -> & Hcve).
  { intros Hnil. pose proof (length_cves src) as Hlen. rewrite Hnil in Hlen.
    discriminate. }
  destruct (choice_elem (draw_severity src i) severities) as (sev & -> & Hsev);
    [discriminate |].
  simpl. eexists. split; [reflexivity |].
  apply assets_elem in Hasset as (a & Ha & ->).
  exists a, cve, sev, (randint 40 100 (draw_score src i)).
  split; [exact Ha |].
  split; [exact Hcve |].
  split; [exact Hsev |].
  split; [apply randint_range; lia |].
  repeat (split; [simplify_map_eq; reflexivity |]).
  rewrite !dom_insert_L, dom_empty_L. apply set_eq. intros key.
  rewrite !elem_of_list_to_set, !elem_of_union, !elem_of_singleton,
    !elem_of_cons, elem_of_nil, elem_of_empty.
  tauto.
Qed.

Lemma generate_scan_stream_yields_aux src num_records :
  exists stream,
    generate_scan_stream src num_records = inr stream /\
    length stream = num_records /\
    Forall (generated_record src) stream.
Proof.
  assert (H : forall count i, exists stream,
            scan_records src i count = inr stream /\
            length stream = count /\ Forall (generated_record src) stream).
  { induction count as [| count IH]; intros i; simpl.
    - exists []. repeat split. constructor.
    - destruct (scan_record_generated src i) as (r & -> & Hr).
      destruct (IH (S i)) as (rest & -> & Hlen & Hall).
      exists (r :: rest). simpl. rewrite Hlen.
      repeat split. constructor; assumption. }
  apply (H num_records 0).
Qed.

(** X15.  The generator never raises and yields as many findings as asked,
    each of them a [generated_record]; the finding identifiers come from
    a list of fifty. *)
Theorem generate_scan_stream_yields (src : source) (num_records : nat) :
  exists stream,
    generate_scan_stream src num_records = inr stream /\
    length stream = num_records /\
    Forall (generated_record src) stream /\
    length (cves src) = 50.
Proof.
  destruct (generate_scan_stream_yields_aux src num_records)
    as (stream & Hs & Hlen & Hall).
  exists stream.
  split; [exact Hs |]. split; [exact Hlen |]. split; [exact Hall |].
  apply length_cves.
Qed.

(** A generated finding goes through both steps of the pipeline that can
    raise on a finding: it is enriched, and the enriched finding holds
    the eight keys of the tuple of [write_to_alloy]; its key in the state
    sink is one of [reachable_keys]. *)
Lemma generated_record_ready src r :
  generated_record src r ->
  exists x p,
    enrich_record r = inr x /\ data_tuple x = inr p /\
    key_of p ∈ reachable_keys src.
Proof.
  intros (i & cve & sev & score & Hi & Hcve & Hsev & Hscore & Hid & Hc & Hsv
          & Hsc & Hsum & Hdom).
  pose proof (asset_num_of_well_formed r i Hid) as Hnum.
  eexists _, _. split; [apply enrich_record_ok; exact Hnum |].
  unfold data_tuple, and_then, Py.getitem.
  rewrite lookup_insert_ne, lookup_insert_ne, lookup_insert_eq by discriminate.
  rewrite !(lookup_insert_ne _ _ "asset_id"), Hid by discriminate.
  rewrite lookup_insert_ne, lookup_insert_eq by discriminate.
  rewrite lookup_insert_eq.
  rewrite !(lookup_insert_ne _ _ "cve_id"), Hc by discriminate.
  rewrite !(lookup_insert_ne _ _ "cvss_score"), Hsc by discriminate.
  rewrite !(lookup_insert_ne _ _ "severity"), Hsv by discriminate.
  rewrite !(lookup_insert_ne _ _ "summary"), Hsum by discriminate.
  split; [reflexivity |].
  unfold key_of, reachable_keys. cbn [p_stable_identity p_cve_id].
  apply list_elem_of_bind. exists (stable_id_of (Z.of_nat i)). split.
  - apply list_elem_of_bind. exists cve. split; [left | exact Hcve].
  - eapply list_elem_of_lookup_2. apply stable_id_of_nat.
Qed.


(** ** The size of the state sink *)

Lemma upsert_sql_dom (now : Z) (p : params) (t : table) :
  dom (upsert_sql now p t) = ({[key_of p]} ∪ dom t : gset (value * value)).
Proof.
  unfold upsert_sql. destruct (t !! key_of p); apply dom_insert_L.
Qed.

Lemma foldl_upsert_dom (now : Z) (K : gset (value * value))
    (data : list params) :
  forall t : table,
    (forall p, p ∈ data -> key_of p ∈ K) ->
    dom t ⊆ K ->
    dom (foldl (fun t p => upsert_sql now p t) t data) ⊆ K.
Proof.
  induction data as [| p data IH]; intros t Hdata Ht; simpl; [exact Ht |].
  apply IH.
  - intros q Hq. apply Hdata. right. exact Hq.
  - rewrite upsert_sql_dom. apply union_subseteq. split; [| exact Ht].
    apply singleton_subseteq_l. apply Hdata. left.
Qed.

Lemma data_tuples_each batch :
  forall data,
    data_tuples batch = inr data ->
    Forall2 (fun x p => data_tuple x = inr p) batch data.
Proof.
  induction batch as [| x batch IH]; intros data; simpl.
  - intros [= <-]. constructor.
  - destruct (data_tuple x) as [ex | p] eqn:Hx; simpl; [discriminate |].
    destruct (data_tuples batch) as [ex | ps]; simpl; [discriminate |].
    intros [= <-]. constructor; [exact Hx | apply IH; reflexivity].
Qed.

Lemma size_list_to_set_le (l : list (value * value)) :
  size (list_to_set l : gset (value * value)) <= length l.
Proof.
  induction l as [| x l IH].
  - rewrite list_to_set_nil, size_empty. simpl. lia.
  - rewrite list_to_set_cons, size_union_alt, size_singleton. simpl.
    assert (H : size ((list_to_set l : gset (value * value)) ∖ {[x]})
                <= size (list_to_set l : gset (value * value)))
      by (apply subseteq_size, subseteq_difference_l; reflexivity).
    lia.
Qed.

(** The keys a run adds to the state sink are keys of its findings: when
    every finding of the stream, once enriched, has its key among
    [keys], so has every row the run adds. *)
Lemma run_poc_dom (e : env) (n : nat) (stream : list dict) (db : table)
    (keys : gset (value * value)) :
  Forall (fun r => forall x p, enrich_record r = inr x ->
                               data_tuple x = inr p -> key_of p ∈ keys) stream ->
  dom (committed (alloy (fst (run_poc e n stream (start db))))) ⊆ dom db ∪ keys.
Proof.
  intros Hs.
  apply (run_poc_alloy_inv
           (fun x => forall p, data_tuple x = inr p -> key_of p ∈ keys)
           (fun c => pending c = None /\ dom (committed c) ⊆ dom db ∪ keys)).
  - intros k b w Hb [Hp Hdom].
    destruct (write_to_alloy_committed e k b w Hp)
      as [Hp' [Hsame | (data & Hd & Hnew)]].
    + split; [assumption |]. rewrite Hsame. assumption.
    + split; [assumption |]. rewrite Hnew.
      apply foldl_upsert_dom; [| assumption].
      intros p Hin.
      apply data_tuples_each in Hd.
      apply list_elem_of_lookup in Hin as [i Hi].
      destruct (Forall2_lookup_r _ _ _ _ _ Hd Hi) as (x & Hx & Hxp).
      apply elem_of_union_r.
      eapply (proj1 (Forall_lookup _ _) Hb); eassumption.
  - intros c [_ Hdom]. split; [reflexivity | exact Hdom].
  - eapply Forall_impl; [exact Hs |]. intros r Hr x Hx p Hp. eauto.
  - split; [reflexivity |]. apply union_subseteq_l.
Qed.

(** X17.  However many findings the generator yields and whatever it draws, a
    run on them adds rows on the keys of [reachable_keys] only, a
    service and one of the fifty finding identifiers: at most 500 rows,
    however the run ends. *)
Theorem generated_stream_bounded_state (src : source) (e : env) (n : nat)
    (num_records : nat) (stream : list dict) (db : table) :
  generate_scan_stream src num_records = inr stream ->
  dom (committed (alloy (fst (run_poc e n stream (start db)))))
    ⊆ dom db ∪ list_to_set (reachable_keys src) /\
  size (committed (alloy (fst (run_poc e n stream (start db))))) <= size db + 500.
Proof.
  intros Hgen.
  destruct (generate_scan_stream_yields_aux src num_records)
    as (stream' & Hgen' & _ & Hall).
  rewrite Hgen in Hgen'. injection Hgen' as <-.
  assert (Hdom : dom (committed (alloy (fst (run_poc e n stream (start db)))))
                 ⊆ dom db ∪ list_to_set (reachable_keys src)).
  { apply run_poc_dom.
    eapply Forall_impl; [exact Hall |]. intros r Hr x p Hx Hp.
    destruct (generated_record_ready src r Hr) as (x' & p' & Hx' & Hp' & Hkey).
    rewrite Hx in Hx'. injection Hx' as <-.
    rewrite Hp in Hp'. injection Hp' as <-.
    apply elem_of_list_to_set. exact Hkey. }
  split; [exact Hdom |].
  rewrite <- !size_dom.
  apply subseteq_size in Hdom.
  rewrite size_union_alt in Hdom.
  assert (Hdiff :
            size ((list_to_set (reachable_keys src) : gset (value * value))
                  ∖ dom db)
            <= size (list_to_set (reachable_keys src) : gset (value * value)))
    by (apply subseteq_size, subseteq_difference_l; reflexivity).
  pose proof (size_list_to_set_le (reachable_keys src)) as Hle.
  assert (Hlen : length (reachable_keys src) = 500).
  { unfold reachable_keys, services, cves. reflexivity. }
  lia.
Qed.

(** ** The further theorems at sample inputs *)

Lemma upsert_sql_commute_witness :
  upsert_sql 30 (sample_params "payment-service-3" "CVE-2024-1111")
    (upsert_sql 31 (sample_params "payment-service-4" "CVE-2024-2222")
       (sample_table "Fixed")) =
  upsert_sql 31 (sample_params "payment-service-4" "CVE-2024-2222")
    (upsert_sql 30 (sample_params "payment-service-3" "CVE-2024-1111")
       (sample_table "Fixed")).
Proof.
  apply (upsert_sql_commute 30 31
           (sample_params "payment-service-3" "CVE-2024-1111")
           (sample_params "payment-service-4" "CVE-2024-2222")
           (sample_table "Fixed")).
  discriminate.
Defined.

Lemma write_to_alloy_committed_batch_witness :
  committed (alloy (fst (write_to_alloy quiet_env 0 enriched_batch
                           (start (sample_table "Fixed"))))) !! sample_key
  = sample_table "Fixed" !! sample_key.
Proof.
  pose proof (write_to_alloy_committed_batch quiet_env 0 enriched_batch
                (start (sample_table "Fixed")) enriched_params) as H.
  destruct H as (Hother & _ & _).
  - reflexivity.
  - vm_compute. reflexivity.
  - intros i _. reflexivity.
  - reflexivity.
  - apply Hother. apply (bool_decide_unpack _). vm_compute. exact I.
Defined.

Lemma run_poc_connection_failure_witness :
  snd (run_poc offline_env 100 (findings 3) (start ∅))
  = inl (SinkError "credentials not found").
Proof.
  rewrite (run_poc_connection_failure offline_env 100 (findings 3) ∅
             (SinkError "credentials not found")).
  - reflexivity.
  - left. reflexivity.
Defined.

Lemma flush_missing_key_witness :
  exists missing,
    snd (flush quiet_env [finding_without_severity] (start ∅))
      = inl (KeyError missing) /\
    alloy (fst (flush quiet_env [finding_without_severity] (start ∅)))
      = alloy (start ∅).
Proof.
  destruct (flush_missing_key quiet_env [finding_without_severity] (start ∅)
              finding_without_severity "severity")
    as (y & missing & _ & _ & Hraise & Halloy & _).
  - left.
  - repeat constructor.
  - vm_compute. reflexivity.
  - exists missing. split; assumption.
Defined.

Lemma run_poc_batch_size_at_most_one_witness :
  exists enriched,
    upserts (fst (run_poc quiet_env 0 (findings 3) (start ∅)))
      = (fun x => [x]) <$> enriched /\
    length enriched = 3.
Proof.
  destruct (run_poc_batch_size_at_most_one quiet_env 0 (findings 3) ∅
              (fst (run_poc quiet_env 0 (findings 3) (start ∅))))
    as (_ & enriched & Hen & Hup & _).
  - lia.
  - rewrite (surjective_pairing (run_poc quiet_env 0 (findings 3) (start ∅)))
      at 1.
    f_equal; vm_compute; reflexivity.
  - exists enriched. split; [exact Hup |].
    rewrite <- (Forall2_length _ _ _ Hen). reflexivity.
Defined.

Lemma run_poc_dispatches_all_when_divisible_witness :
  exists enriched,
    concat (upserts (fst (run_poc quiet_env 2 (findings 4) (start ∅))))
      = enriched /\
    length enriched = 4.
Proof.
  destruct (run_poc_dispatches_all_when_divisible quiet_env 2 (findings 4) ∅
              (fst (run_poc quiet_env 2 (findings 4) (start ∅))))
    as (enriched & Hen & Hcat & _).
  - lia.
  - reflexivity.
  - rewrite (surjective_pairing (run_poc quiet_env 2 (findings 4) (start ∅)))
      at 1.
    f_equal; vm_compute; reflexivity.
  - exists enriched. split; [exact Hcat |].
    rewrite <- (Forall2_length _ _ _ Hen). reflexivity.
Defined.

Lemma enrich_record_keeps_fields_witness :
  enriched_finding !! "cve_id" = Some (VStr "CVE-2024-1111").
Proof.
  destruct (enrich_record_keeps_fields
              (raw_finding "asset-37" "CVE-2024-1111") enriched_finding)
    as [_ Hkeep].
  - reflexivity.
  - rewrite Hkeep; [reflexivity |].
    apply (bool_decide_unpack _). vm_compute. exact I.
Defined.

Lemma enrich_record_no_separator_witness :
  enrich_record (raw_finding "asset7" "CVE-2024-1111") = inl IndexError.
Proof.
  apply (enrich_record_no_separator
           (raw_finding "asset7" "CVE-2024-1111") "asset7").
  - unfold free_of. simpl. intros H.
    repeat (destruct H as [H | H]; [discriminate |]). exact H.
  - reflexivity.
Defined.

Lemma enrich_record_reads_second_piece_witness :
  derived (enrich_record (raw_finding "host-17-eu" "CVE-2024-1111")) =
  derived (enrich_record
             (<["asset_id" := VStr "asset-17"]>
                (raw_finding "host-17-eu" "CVE-2024-1111"))).
Proof.
  apply (enrich_record_reads_second_piece
           (raw_finding "host-17-eu" "CVE-2024-1111") "host" "17" "-eu").
  - unfold free_of. simpl. intros H.
    repeat (destruct H as [H | H]; [discriminate |]). exact H.
  - unfold free_of. simpl. intros H.
    repeat (destruct H as [H | H]; [discriminate |]). exact H.
  - right. exists "eu"%string. reflexivity.
  - reflexivity.
Defined.

Lemma write_to_bq_rows_witness :
  exists rows,
    rows_to_insert quiet_env 0 0 enriched_batch = inr rows /\
    Forall2 (archive_row_of quiet_env) enriched_batch rows.
Proof.
  destruct (write_to_bq_rows quiet_env 0 enriched_batch
              (fst (write_to_bq quiet_env 0 enriched_batch [])))
    as (rows & errors & Hrows & Hshape & _).
  - rewrite (surjective_pairing (write_to_bq quiet_env 0 enriched_batch []))
      at 1.
    f_equal; vm_compute; reflexivity.
  - exists rows. split; assumption.
Defined.

Lemma write_to_bq_silent_failure_witness :
  exists ex,
    futures (fst (flush quiet_env [finding_without_date] (start ∅))) =
      [{| task_batch := [finding_without_date]; task_log := [];
          task_result := inl ex |}].
Proof.
  destruct (write_to_bq_silent_failure quiet_env [finding_without_date]
              (start ∅) finding_without_date "scan_date")
    as (ex & _ & Hfut).
  - left.
  - repeat constructor.
  - vm_compute. reflexivity.
  - exists ex. exact Hfut.
Defined.


Lemma generated_stream_bounded_state_witness :
  size (committed (alloy (fst (run_poc quiet_env 1 three_generated (start ∅)))))
  <= size (∅ : table) + 500.
Proof.
  apply (generated_stream_bounded_state sample_source quiet_env 1 3
           three_generated ∅).
  reflexivity.
Defined.
